(** * Verification of the trap package (graceful shutdown on signals)

    Shallow embedding of [trap.go]: the callback registry
    [cbsList : map[os.Signal]*list.List], the [container/list] objects it
    points to, the dispatcher goroutine started by [init], and the exported
    functions [OnSignal], [OnKill], [OnReload] and [Deferrer].

    Modelling choices:
    - [os.Signal] values are [syscall.Signal] numbers, so a signal is a [nat]
      (Linux numbering: SIGINT = 2, SIGQUIT = 3, SIGKILL = 9, SIGUSR1 = 10).
    - A [Callback] is an opaque name; callbacks cannot reach the registry
      while running, since [processSignal] holds [mux] for the whole call
      and any [OnSignal] or remover inside a callback would block on it.
    - The [*list.List] objects live in a heap [lists] indexed by a fresh
      reference; the map [cbsList] stores references, so a remover closure
      that captured the list pointer [l] keeps pointing at the old list
      after [processSignal] replaced the map entry with [list.New()].
    - A [*list.Element] is identified by a fresh number [eid] (its pointer);
      [l.Remove(e)] removes that element if it is still in [l]. *)

From stdpp Require Import base gmap list strings.

(* ------------------------------------------------------------------ *)
(** ** Signals and list elements *)

Definition SIGINT : nat := 2.
Definition SIGQUIT : nat := 3.
Definition SIGKILL : nat := 9.
Definition SIGUSR1 : nat := 10.

(** [case syscall.SIGKILL, syscall.SIGINT, syscall.SIGQUIT:] *)
Definition is_kill (s : nat) : bool :=
  (s =? SIGKILL) || (s =? SIGINT) || (s =? SIGQUIT).

(** [type Callback func()]: a callback is known by its name. *)
Definition Callback := nat.

(** A [*list.Element] holding a [Callback]: its identity and its value. *)
Record Element := mkElement { eid : nat; value : Callback }.

(** The closure returned by [OnSignal] captures the list [l] and the
    element [e]; it is represented by these two references. *)
Record Remover := mkRemover { rlist : nat; relem : nat }.

(** Package state: [cbsList], the heap of [list.List] objects, the
    allocation counters and the signals passed to [signal.Notify]. *)
Record Trap := mkTrap {
  cbsList : gmap nat nat;
  lists : gmap nat (list Element);
  nextList : nat;
  nextElem : nat;
  notified : list nat
}.

(** [init]: [cbsList = make(map[os.Signal]*list.List)]. *)
Definition trap_init : Trap := mkTrap ∅ ∅ 0 0 [].

(** Observable events of the package. *)
Inductive Event :=
| ELock                 (* mux.Lock() in processSignal *)
| EUnlock               (* the deferred mux.Unlock() *)
| EInvoke (e : Element) (* cb() *)
| EDone                 (* the dispatcher's deferred wait.Done() *)
| EPanic (msg : string) (* the panic report printed by Deferrer *)
| EExit (code : nat).   (* os.Exit(code) *)

(* ------------------------------------------------------------------ *)
(** ** container/list operations *)

(** [list.New()]: a fresh, empty list. *)
Definition listNew (t : Trap) : nat * Trap :=
  (nextList t,
   mkTrap (cbsList t) (<[nextList t := []]> (lists t)) (S (nextList t))
          (nextElem t) (notified t)).

(** [l.PushBack(cb)]: append a fresh element, return it. *)
Definition pushBack (l : nat) (cb : Callback) (t : Trap) : nat * Trap :=
  (nextElem t,
   mkTrap (cbsList t)
          (alter (fun xs => xs ++ [mkElement (nextElem t) cb]) l (lists t))
          (nextList t) (S (nextElem t)) (notified t)).

(** [l.Remove(e)]: removes [e] from [l] if [e] is an element of [l]. *)
Definition listRemove (l e : nat) (t : Trap) : Trap :=
  mkTrap (cbsList t)
         (alter (List.filter (fun x => negb (eid x =? e))) l (lists t))
         (nextList t) (nextElem t) (notified t).

Definition setCbs (s l : nat) (t : Trap) : Trap :=
  mkTrap (<[s := l]> (cbsList t)) (lists t) (nextList t) (nextElem t)
         (notified t).

(** [signal.Notify(ch, sig)]. *)
Definition notify (s : nat) (t : Trap) : Trap :=
  mkTrap (cbsList t) (lists t) (nextList t) (nextElem t) (notified t ++ [s]).

(** The contents of the list registered for [s] ([] when there is none). *)
Definition contents (t : Trap) (s : nat) : list Element :=
  match cbsList t !! s with
  | Some l => default [] (lists t !! l)
  | None => []
  end.

(* ------------------------------------------------------------------ *)
(** ** OnSignal, OnReload, OnKill *)

(** [OnSignal(sig, cb)]: look up or lazily create the list (calling
    [signal.Notify] when it is created), push the callback, and return
    the remover [func() { l.Remove(e) }]. *)
Definition OnSignal (sig : nat) (cb : Callback) (t : Trap) : Trap * Remover :=
  let '(l, t1) :=
    match cbsList t !! sig with
    | Some l => (l, t)
    | None =>
        let t0 := notify sig t in
        let '(l, t0') := listNew t0 in
        (l, setCbs sig l t0')
    end in
  let '(e, t2) := pushBack l cb t1 in
  (t2, mkRemover l e).

(** Calling a remover. *)
Definition runRemover (r : Remover) (t : Trap) : Trap :=
  listRemove (rlist r) (relem r) t.

Definition OnReload (cb : Callback) (t : Trap) : Trap * Remover :=
  OnSignal SIGUSR1 cb t.

(** [OnKill(cb)]: registers on SIGKILL, SIGQUIT, SIGINT (in that order);
    the combined remover runs the three removers in the same order. *)
Definition OnKill (cb : Callback) (t : Trap) : Trap * list Remover :=
  let '(t1, r1) := OnSignal SIGKILL cb t in
  let '(t2, r2) := OnSignal SIGQUIT cb t1 in
  let '(t3, r3) := OnSignal SIGINT cb t2 in
  (t3, [r1; r2; r3]).

Definition runRemovers (rs : list Remover) (t : Trap) : Trap :=
  fold_left (fun t r => runRemover r t) rs t.

(* ------------------------------------------------------------------ *)
(** ** processSignal *)

(** [cbsList[syscall.SIGKILL] = list.New()] and the same for SIGINT and
    SIGQUIT. *)
Definition truncateKill (t : Trap) : Trap :=
  let '(l1, t1) := listNew t in
  let t1' := setCbs SIGKILL l1 t1 in
  let '(l2, t2) := listNew t1' in
  let t2' := setCbs SIGINT l2 t2 in
  let '(l3, t3) := listNew t2' in
  setCbs SIGQUIT l3 t3.

(** [processSignal(s)]: under [mux], look the list up (returning early when
    absent), truncate the three kill lists when [s] is one of them, then
    call the callbacks of the captured list [cbs] from back to front.  The
    type assertion [e.Value.(Callback)] always succeeds here, since every
    element was pushed by [OnSignal] with a [Callback]. *)
Definition processSignal (s : nat) (t : Trap) : Trap * list Event :=
  match cbsList t !! s with
  | None => (t, [ELock; EUnlock])
  | Some l =>
      let cbs := default [] (lists t !! l) in
      let t' := if is_kill s then truncateKill t else t in
      (t', [ELock] ++ map EInvoke (rev cbs) ++ [EUnlock])
  end.

(** The callbacks called in a list of events. *)
Fixpoint invoked (ev : list Event) : list Element :=
  match ev with
  | [] => []
  | EInvoke e :: ev' => e :: invoked ev'
  | _ :: ev' => invoked ev'
  end.


(* ------------------------------------------------------------------ *)
(** ** Sequences of client operations *)

(** A client program interleaves registrations, remover calls and
    dispatches; a remover may be any pair of references. *)
Inductive Op :=
| OpReg (s : nat) (cb : Callback)
| OpRem (r : Remover)
| OpDisp (s : nat).

Fixpoint exec (ops : list Op) (t : Trap) : Trap * list Event :=
  match ops with
  | [] => (t, [])
  | OpReg s cb :: ops' => exec ops' (fst (OnSignal s cb t))
  | OpRem r :: ops' => exec ops' (runRemover r t)
  | OpDisp s :: ops' =>
      let '(t1, ev1) := processSignal s t in
      let '(t2, ev2) := exec ops' t1 in
      (t2, ev1 ++ ev2)
  end.

(* ------------------------------------------------------------------ *)
(** ** The dispatcher goroutine and Deferrer *)

(** The whole package: the registry, the buffered channel [ch] (its
    pending values and whether it is closed), whether the goroutine
    started by [init] is still running (the [wait] counter), and whether
    [signal.Stop(ch)] has been called. *)
Record World := mkWorld {
  trap : Trap;
  chq : list nat;
  closed : bool;
  running : bool;
  sigStopped : bool
}.

Definition world_init : World := mkWorld trap_init [] false true false.

(** The loop body applied to every pending value, in channel order. *)
Fixpoint drain (q : list nat) (t : Trap) : Trap * list Event :=
  match q with
  | [] => (t, [])
  | s :: q' =>
      let '(t1, ev1) := processSignal s t in
      let '(t2, ev2) := drain q' t1 in
      (t2, ev1 ++ ev2)
  end.

(** [wait.Wait()] after [close(ch)]: the goroutine receives every pending
    value, then sees [!ok], breaks and runs [wait.Done()]. *)
Definition waitLoop (w : World) : World * list Event :=
  if running w then
    let '(t', ev) := drain (chq w) (trap w) in
    (mkWorld t' [] (closed w) false (sigStopped w), ev ++ [EDone])
  else (w, []).

(** [Deferrer()], called as [defer trap.Deferrer()]; [p] is the value
    returned by [recover()] ([None] when no panic is unwinding).
    Sending on a closed channel panics: [None].  The buffered send
    [ch <- syscall.SIGINT] may wait for the goroutine to make room; it is
    modelled by appending to the pending values.  The [defer os.Exit(1)]
    registered inside the [if] runs when [Deferrer] returns, after
    [wait.Wait()]. *)
Definition Deferrer (p : option string) (w : World) : option (World * list Event) :=
  let pre := match p with Some m => [EPanic m] | None => [] end in
  let post := match p with Some _ => [EExit 1] | None => [] end in
  if closed w then None
  else
    let w1 := mkWorld (trap w) (chq w ++ [SIGINT]) true (running w) true in
    let '(w2, ev) := waitLoop w1 in
    Some (w2, pre ++ ev ++ post).

(** Everything that can happen to the package, one step at a time.
    Delivery into the channel is allowed in every state, also after
    [signal.Stop] and [close]: a re-delivered signal is never excluded. *)
Inductive wstep : World -> list Event -> World -> Prop :=
| WDeliver w s :
    wstep w [] (mkWorld (trap w) (chq w ++ [s]) (closed w) (running w) (sigStopped w))
| WReg w s cb :
    wstep w [] (mkWorld (fst (OnSignal s cb (trap w))) (chq w) (closed w) (running w) (sigStopped w))
| WRem w r :
    wstep w [] (mkWorld (runRemover r (trap w)) (chq w) (closed w) (running w) (sigStopped w))
| WDispatch w s q t' ev :
    running w = true -> chq w = s :: q -> processSignal s (trap w) = (t', ev) ->
    wstep w ev (mkWorld t' q (closed w) (running w) (sigStopped w))
| WFinish w :
    running w = true -> chq w = [] -> closed w = true ->
    wstep w [EDone] (mkWorld (trap w) [] (closed w) false (sigStopped w))
| WDeferrer w p w' ev :
    Deferrer p w = Some (w', ev) -> wstep w ev w'.

Inductive wsteps : World -> list Event -> World -> Prop :=
| WSRefl w : wsteps w [] w
| WSStep w ev w' tr w'' : wstep w ev w' -> wsteps w' tr w'' -> wsteps w (ev ++ tr) w''.

(** A client that registers callbacks on one signal [s] and, for
    [RRem i], calls the remover it got back from its [i]-th registration
    (numbered from 0; no remover is called when there is none). *)
Inductive RegOp :=
| RReg (cb : Callback)
| RRem (i : nat).

Fixpoint runRegs (s : nat) (ops : list RegOp) (t : Trap) (hs : list Remover)
    : Trap * list Remover :=
  match ops with
  | [] => (t, hs)
  | RReg cb :: ops' =>
      let '(t', h) := OnSignal s cb t in runRegs s ops' t' (hs ++ [h])
  | RRem i :: ops' =>
      runRegs s ops' (match hs !! i with Some h => runRemover h t | None => t end) hs
  end.

(** The registrations of such a client that were not removed, with their
    numbers, in registration order. *)
Fixpoint liveRegs (ops : list RegOp) (n : nat) (acc : list (nat * Callback))
    : list (nat * Callback) :=
  match ops with
  | [] => acc
  | RReg cb :: ops' => liveRegs ops' (S n) (acc ++ [(n, cb)])
  | RRem i :: ops' => liveRegs ops' n (List.filter (fun p => negb (fst p =? i)) acc)
  end.

(** A dispatch that would make the callbacks run outside [mux] has no
    invocation between an [ELock] and the next [EUnlock]. *)
Fixpoint invoke_while_locked (held : bool) (ev : list Event) : bool :=
  match ev with
  | [] => false
  | ELock :: ev' => invoke_while_locked true ev'
  | EUnlock :: ev' => invoke_while_locked false ev'
  | EInvoke _ :: ev' => held || invoke_while_locked held ev'
  | _ :: ev' => invoke_while_locked held ev'
  end.

(* ------------------------------------------------------------------ *)
(** ** Invariants *)

(** Map entries point to allocated lists, distinct signals to distinct
    lists, and every list holds distinct, already allocated elements. *)
Definition wf (t : Trap) : Prop :=
  (forall s l, cbsList t !! s = Some l -> l < nextList t /\ is_Some (lists t !! l)) /\
  (forall s1 s2 l, cbsList t !! s1 = Some l -> cbsList t !! s2 = Some l -> s1 = s2) /\
  (forall l xs, lists t !! l = Some xs ->
     l < nextList t /\ NoDup (map eid xs) /\ forall x, In x xs -> eid x < nextElem t).

(** [e] is not in any list and will never be allocated again. *)
Definition absent (e : nat) (t : Trap) : Prop :=
  e < nextElem t /\ forall l xs, lists t !! l = Some xs -> ~ In e (map eid xs).

(** No element is in two of the three kill-class lists. *)
Definition kill_disjoint (t : Trap) : Prop :=
  forall σ1 σ2 x y, is_kill σ1 = true -> is_kill σ2 = true -> σ1 <> σ2 ->
    In x (contents t σ1) -> In y (contents t σ2) -> eid x <> eid y.

(** The elements already called ([done]) are distinct, allocated, and
    no longer in any kill-class list. *)
Definition InvC1 (t : Trap) (done : list Element) : Prop :=
  wf t /\ NoDup (map eid done) /\ (forall x, In x done -> eid x < nextElem t) /\
  (forall σ x, is_kill σ = true -> In x (contents t σ) -> ~ In (eid x) (map eid done)) /\
  kill_disjoint t.

(** The element created by the registration numbered [fst p], when the
    first registration got element [n0]. *)
Definition mkE (n0 : nat) (p : nat * Callback) : Element := mkElement (n0 + fst p) (snd p).

(** What a [runRegs] client on [s] has built after [cnt] registrations,
    with [live] the registrations still in place. *)
Definition InvR (s n0 : nat) (t : Trap) (hs : list Remover) (live : list (nat * Callback))
    (cnt : nat) : Prop :=
  length hs = cnt /\ nextElem t = n0 + cnt /\ (forall p, In p live -> fst p < cnt) /\
  ((cbsList t !! s = None /\ live = [] /\ hs = []) \/
   exists l, cbsList t !! s = Some l /\ lists t !! l = Some (map (mkE n0) live) /\
     forall i h, hs !! i = Some h -> h = mkRemover l (n0 + i)).

(** [signal.Notify] was called at most once per signal, and only for
    signals that have a list. *)
Definition notify_ok (t : Trap) : Prop :=
  NoDup (notified t) /\ forall s, In s (notified t) -> is_Some (cbsList t !! s).

(** A client that calls [OnKill] with each callback of [cs] in turn. *)
Definition onKillAll (cs : list Callback) (t : Trap) : Trap :=
  fold_left (fun t c => fst (OnKill c t)) cs t.

(* ------------------------------------------------------------------ *)
(** ** Removers after other operations *)

(** The remover [r] got back from a registration on [s]: its element is in
    no list but [rlist r], and no other signal maps to [rlist r]. *)
Definition rem_inv (s : nat) (r : Remover) (t : Trap) : Prop :=
  wf t /\ rlist r < nextList t /\ relem r < nextElem t /\
  (forall l xs, l <> rlist r -> lists t !! l = Some xs -> ~ In (relem r) (map eid xs)) /\
  (forall σ, σ <> s -> cbsList t !! σ <> Some (rlist r)).

(** No signal maps to [rlist r] any more. *)
Definition rem_detached (r : Remover) (t : Trap) : Prop :=
  rlist r < nextList t /\ forall σ, cbsList t !! σ <> Some (rlist r).

(* ------------------------------------------------------------------ *)
(** ** [mux] shared by the dispatcher and other goroutines *)

(** Other goroutines: each calls [OnSignal] or a remover, whose whole body
    runs between [mux.Lock()] and the deferred [mux.Unlock()]. *)
Inductive COp :=
| CReg (s : nat) (cb : Callback)
| CRem (r : Remover).

Definition cop_apply (o : COp) (t : Trap) : Trap :=
  match o with
  | CReg s cb => fst (OnSignal s cb t)
  | CRem r => runRemover r t
  end.

(** A client goroutine either does not hold [mux] or holds it and is about
    to run the body of its call. *)
Inductive CThread :=
| CIdle
| CHeld (o : COp).

(** Where the dispatcher goroutine is in [processSignal(s)]: not in it;
    after [mux.Lock()]; after the lookup found the list [l]; in the loop
    over [l] with [k] elements still to visit from the back; returning
    (early or after the loop) with the deferred [mux.Unlock()] pending. *)
Inductive DPhase :=
| DIdle
| DLocked (s : nat)
| DFound (s l : nat)
| DLoop (s l k : nat)
| DDone.

Record CWorld := mkCW {
  ctrap : Trap;
  locked : bool;
  dph : DPhase;
  clients : list CThread
}.

Inductive CEvent :=
| DLockE (s : nat)
| DInvokeE (e : Element)
| DUnlockE
| CAcqE (i : nat)
| CDoE (i : nat) (o : COp).

(** One step of one goroutine.  [mux.Lock()] waits while [mux] is held. *)
Inductive cstep : CWorld -> list CEvent -> CWorld -> Prop :=
| CSLock c s :
    dph c = DIdle -> locked c = false ->
    cstep c [DLockE s] (mkCW (ctrap c) true (DLocked s) (clients c))
| CSMiss c s :
    dph c = DLocked s -> cbsList (ctrap c) !! s = None ->
    cstep c [] (mkCW (ctrap c) (locked c) DDone (clients c))
| CSHit c s l :
    dph c = DLocked s -> cbsList (ctrap c) !! s = Some l ->
    cstep c [] (mkCW (ctrap c) (locked c) (DFound s l) (clients c))
| CSTrunc c s l t' :
    dph c = DFound s l -> t' = (if is_kill s then truncateKill (ctrap c) else ctrap c) ->
    cstep c [] (mkCW t' (locked c) (DLoop s l (length (default [] (lists t' !! l))))
                     (clients c))
| CSInvoke c s l k e :
    dph c = DLoop s l (S k) -> default [] (lists (ctrap c) !! l) !! k = Some e ->
    cstep c [DInvokeE e] (mkCW (ctrap c) (locked c) (DLoop s l k) (clients c))
| CSEnd c s l :
    dph c = DLoop s l 0 ->
    cstep c [] (mkCW (ctrap c) (locked c) DDone (clients c))
| CSUnlock c :
    dph c = DDone ->
    cstep c [DUnlockE] (mkCW (ctrap c) false DIdle (clients c))
| CSAcq c i o :
    clients c !! i = Some CIdle -> locked c = false ->
    cstep c [CAcqE i] (mkCW (ctrap c) true (dph c) (<[i := CHeld o]> (clients c)))
| CSDo c i o :
    clients c !! i = Some (CHeld o) ->
    cstep c [CDoE i o] (mkCW (cop_apply o (ctrap c)) false (dph c) (<[i := CIdle]> (clients c))).

Inductive csteps : CWorld -> list CEvent -> CWorld -> Prop :=
| CSRefl c : csteps c [] c
| CSStep c ev c' tr c'' : cstep c ev c' -> csteps c' tr c'' -> csteps c (ev ++ tr) c''.

Fixpoint cinvoked (tr : list CEvent) : list Element :=
  match tr with
  | [] => []
  | DInvokeE e :: tr' => e :: cinvoked tr'
  | _ :: tr' => cinvoked tr'
  end.

(** The registry [t], [mux] free, the dispatcher waiting on the channel and
    [n] client goroutines outside the package. *)
Definition cw_init (t : Trap) (n : nat) : CWorld := mkCW t false DIdle (repeat CIdle n).

Definition held (x : CThread) : bool := match x with CHeld _ => true | CIdle => false end.

Definition dbusy (ph : DPhase) : bool := match ph with DIdle => false | _ => true end.

(** [mux] is held exactly when one goroutine is inside a critical section;
    the registry is well formed; and a kill-class dispatch that is in its
    loop has already emptied the three kill-class lists. *)
Definition cinv (c : CWorld) : Prop :=
  (if locked c then 1 else 0) =
    (if dbusy (dph c) then 1 else 0) + length (List.filter held (clients c)) /\
  wf (ctrap c) /\
  (forall s l k, dph c = DLoop s l k -> is_kill s = true ->
     forall σ, is_kill σ = true -> contents (ctrap c) σ = []).

(** How far a dispatch of [s] that took [mux] in state [c0] has got in
    [c1], with [so] the callbacks it called so far. *)
Definition run_rel (c0 : CWorld) (s : nat) (c1 : CWorld) (so : list Element) : Prop :=
  locked c1 = true /\ clients c1 = clients c0 /\
  match dph c1 with
  | DIdle => False
  | DLocked s' => s' = s /\ ctrap c1 = ctrap c0 /\ so = []
  | DFound s' l => s' = s /\ ctrap c1 = ctrap c0 /\ cbsList (ctrap c0) !! s = Some l /\ so = []
  | DLoop s' l k =>
      s' = s /\ cbsList (ctrap c0) !! s = Some l /\
      ctrap c1 = fst (processSignal s (ctrap c0)) /\
      default [] (lists (ctrap c1) !! l) = contents (ctrap c0) s /\
      k <= length (contents (ctrap c0) s) /\
      so = rev (drop k (contents (ctrap c0) s))
  | DDone => ctrap c1 = fst (processSignal s (ctrap c0)) /\ so = rev (contents (ctrap c0) s)
  end.

(* ------------------------------------------------------------------ *)
(** ** Equations of the operations *)

Lemma OnSignal_some t s c l :
  cbsList t !! s = Some l ->
  OnSignal s c t =
    (mkTrap (cbsList t) (alter (fun xs => xs ++ [mkElement (nextElem t) c]) l (lists t))
            (nextList t) (S (nextElem t)) (notified t),
     mkRemover l (nextElem t)).
Proof. intros H. unfold OnSignal. rewrite H. reflexivity. Qed.

Lemma OnSignal_none t s c :
  cbsList t !! s = None ->
  OnSignal s c t =
    (mkTrap (<[s := nextList t]> (cbsList t))
            (<[nextList t := [mkElement (nextElem t) c]]> (lists t))
            (S (nextList t)) (S (nextElem t)) (notified t ++ [s]),
     mkRemover (nextList t) (nextElem t)).
Proof.
  intros H. unfold OnSignal. rewrite H. simpl.
  unfold pushBack, listNew, setCbs, notify; simpl.
  rewrite alter_insert_eq. reflexivity.
Qed.

Lemma truncateKill_eq t :
  truncateKill t =
    mkTrap (<[SIGQUIT := S (S (nextList t))]> (<[SIGINT := S (nextList t)]>
              (<[SIGKILL := nextList t]> (cbsList t))))
           (<[S (S (nextList t)) := []]> (<[S (nextList t) := []]>
              (<[nextList t := []]> (lists t))))
           (S (S (S (nextList t)))) (nextElem t) (notified t).
Proof. reflexivity. Qed.

Lemma processSignal_events s t :
  snd (processSignal s t) = [ELock] ++ map EInvoke (rev (contents t s)) ++ [EUnlock].
Proof.
  unfold processSignal, contents. destruct (cbsList t !! s); reflexivity.
Qed.

Lemma invoked_app ev1 ev2 : invoked (ev1 ++ ev2) = invoked ev1 ++ invoked ev2.
Proof.
  induction ev1 as [|[] ev1 IH]; simpl; rewrite ?IH; reflexivity.
Qed.

Lemma invoked_map_EInvoke xs : invoked (map EInvoke xs) = xs.
Proof. induction xs; simpl; congruence. Qed.

Lemma processSignal_invoked s t :
  invoked (snd (processSignal s t)) = rev (contents t s).
Proof.
  rewrite processSignal_events. simpl.
  rewrite invoked_app, invoked_map_EInvoke. simpl. apply app_nil_r.
Qed.

Lemma processSignal_state s t :
  fst (processSignal s t) =
    match cbsList t !! s with
    | Some _ => if is_kill s then truncateKill t else t
    | None => t
    end.
Proof. unfold processSignal. destruct (cbsList t !! s); reflexivity. Qed.

Lemma exec_cons_disp s ops t :
  exec (OpDisp s :: ops) t =
    (fst (exec ops (fst (processSignal s t))),
     snd (processSignal s t) ++ snd (exec ops (fst (processSignal s t)))).
Proof.
  simpl. destruct (processSignal s t) as [t1 ev1]. simpl.
  destruct (exec ops t1); reflexivity.
Qed.

Lemma processSignal_no_exit s t n : ~ In (EExit n) (snd (processSignal s t)).
Proof.
  rewrite processSignal_events. rewrite !in_app_iff, in_map_iff. simpl.
  intros [[|[]]|[[x [Hx _]]|[|[]]]]; discriminate.
Qed.

Lemma processSignal_no_done s t : ~ In EDone (snd (processSignal s t)).
Proof.
  rewrite processSignal_events. rewrite !in_app_iff, in_map_iff. simpl.
  intros [[|[]]|[[x [Hx _]]|[|[]]]]; discriminate.
Qed.

Lemma drain_no_exit q t n : ~ In (EExit n) (snd (drain q t)).
Proof.
  revert t. induction q as [|s q IH]; intros t; simpl; [tauto|].
  pose proof (processSignal_no_exit s t n) as H1.
  destruct (processSignal s t) as [t1 ev1]. specialize (IH t1).
  destruct (drain q t1) as [t2 ev2]. simpl in *. rewrite in_app_iff. tauto.
Qed.

Lemma drain_invoked q t :
  invoked (snd (drain q t)) = invoked (snd (exec (map OpDisp q) t)).
Proof.
  revert t. induction q as [|s q IH]; intros t; [reflexivity|].
  simpl map. rewrite exec_cons_disp. simpl.
  destruct (processSignal s t) as [t1 ev1] eqn:E. simpl.
  specialize (IH t1). destruct (drain q t1) as [t2 ev2]. simpl in *.
  rewrite !invoked_app, IH. reflexivity.
Qed.

Lemma Deferrer_eq p w :
  closed w = false -> running w = true ->
  Deferrer p w =
    Some (mkWorld (fst (drain (chq w ++ [SIGINT]) (trap w))) [] true false true,
          match p with Some m => [EPanic m] | None => [] end ++
          (snd (drain (chq w ++ [SIGINT]) (trap w)) ++ [EDone]) ++
          match p with Some _ => [EExit 1] | None => [] end).
Proof.
  intros Hc Hr. unfold Deferrer, waitLoop. rewrite Hc. simpl. rewrite Hr.
  destruct (drain (chq w ++ [SIGINT]) (trap w)). reflexivity.
Qed.

Lemma wstep_stopped w ev w' :
  wstep w ev w' -> running w = false -> invoked ev = [] /\ running w' = false.
Proof.
  intros Hs Hr. destruct Hs as [w s|w s cb|w r|w s q t' ev Hrun|w Hrun|w p w' ev HD];
    simpl; try (split; [reflexivity | assumption]); try congruence.
  unfold Deferrer in HD. destruct (closed w); [discriminate|].
  unfold waitLoop in HD. simpl in HD. rewrite Hr in HD.
  injection HD as <- <-. destruct p; simpl; auto.
Qed.

Lemma wsteps_stopped w tr w' :
  wsteps w tr w' -> running w = false -> invoked tr = [] /\ running w' = false.
Proof.
  induction 1 as [w|w ev w' tr w'' Hs _ IH]; intros Hr; [auto|].
  destruct (wstep_stopped w ev w' Hs Hr) as [H1 H2].
  destruct (IH H2) as [H3 H4]. rewrite invoked_app, H1, H3. auto.
Qed.

(* ------------------------------------------------------------------ *)
(** ** Well-formed states *)


Lemma wf_init : wf trap_init.
Proof.
  unfold wf, trap_init; simpl. repeat split; intros *; rewrite ?lookup_empty; discriminate.
Qed.

Lemma NoDup_map_eid_filter (f : Element -> bool) xs :
  NoDup (map eid xs) -> NoDup (map eid (List.filter f xs)).
Proof.
  induction xs as [|x xs IH]; simpl; [auto|]. intros Hnd. inversion Hnd; subst.
  destruct (f x); simpl; [|auto]. constructor; [|auto].
  intros Hin. apply list_elem_of_In, in_map_iff in Hin as [y [Hy Hin]].
  apply filter_In in Hin as [Hin _]. apply H1, list_elem_of_In, in_map_iff. eauto.
Qed.

Lemma NoDup_map_eid_snoc xs x :
  NoDup (map eid xs) -> (forall y, In y xs -> eid y < eid x) ->
  NoDup (map eid (xs ++ [x])).
Proof.
  intros Hnd Hlt. rewrite map_app. apply NoDup_app. split; [done|]. split.
  - intros i Hi Hi'. apply list_elem_of_singleton in Hi'. subst i.
    apply list_elem_of_In, in_map_iff in Hi as [y [Hy Hin]].
    specialize (Hlt y Hin). lia.
  - simpl. constructor; [set_solver | constructor].
Qed.

Lemma wf_OnSignal s c t : wf t -> wf (fst (OnSignal s c t)).
Proof.
  intros (H1 & H2 & H3). destruct (cbsList t !! s) as [l|] eqn:E.
  - rewrite (OnSignal_some t s c l E). unfold wf; simpl. split; [|split].
    + intros s' l' Hs'. destruct (H1 s' l' Hs') as [Hlt Hl]. split; [done|].
      rewrite lookup_alter_is_Some. done.
    + exact H2.
    + intros l' xs Hl'. apply lookup_alter_Some in Hl' as
        [[<- [ys [Hys ->]]] | [Hne Hl']].
      * destruct (H3 l ys Hys) as (Hlt & Hnd & Hb). split; [done|]. split.
        -- apply NoDup_map_eid_snoc; [done|]. simpl. intros y Hy. apply Hb, Hy.
        -- intros x Hx. apply in_app_iff in Hx as [Hx|[<-|[]]]; simpl; [|lia].
           specialize (Hb x Hx). lia.
      * destruct (H3 l' xs Hl') as (Hlt & Hnd & Hb). split; [done|]. split; [done|].
        intros x Hx. specialize (Hb x Hx). lia.
  - rewrite (OnSignal_none t s c E). unfold wf; simpl. split; [|split].
    + intros s' l' Hs'. rewrite lookup_insert in Hs'.
      case_decide; [injection Hs' as <-; rewrite lookup_insert_eq; split; [lia|done]|].
      destruct (H1 s' l' Hs') as [Hlt Hl]. split; [lia|].
      rewrite lookup_insert_ne by lia. done.
    + intros s1 s2 l' Hs1 Hs2. rewrite lookup_insert in Hs1, Hs2.
      destruct (decide (s = s1)) as [<-|N1], (decide (s = s2)) as [<-|N2]; try done.
      * injection Hs1 as <-. apply H1 in Hs2 as [Hlt _]. lia.
      * injection Hs2 as <-. apply H1 in Hs1 as [Hlt _]. lia.
      * eauto.
    + intros l' xs Hl'. rewrite lookup_insert in Hl'. case_decide.
      * injection Hl' as <-. subst l'. split; [lia|]. split.
        -- simpl. constructor; [set_solver | constructor].
        -- intros x [<-|[]]. simpl. lia.
      * destruct (H3 l' xs Hl') as (Hlt & Hnd & Hb). split; [lia|]. split; [done|].
        intros x Hx. specialize (Hb x Hx). lia.
Qed.

Lemma wf_runRemover r t : wf t -> wf (runRemover r t).
Proof.
  intros (H1 & H2 & H3). unfold wf, runRemover, listRemove; simpl. split; [|split].
  - intros s l Hs. destruct (H1 s l Hs) as [Hlt Hl]. split; [done|].
    rewrite lookup_alter_is_Some. done.
  - exact H2.
  - intros l xs Hl. apply lookup_alter_Some in Hl as [[<- [ys [Hys ->]]] | [Hne Hl]].
    + destruct (H3 _ ys Hys) as (Hlt & Hnd & Hb). split; [done|]. split.
      * by apply NoDup_map_eid_filter.
      * intros x Hx. apply filter_In in Hx as [Hx _]. auto.
    + auto.
Qed.

Lemma wf_truncateKill t : wf t -> wf (truncateKill t).
Proof.
  intros (H1 & H2 & H3). rewrite truncateKill_eq. unfold wf; simpl.
  split; [|split].
  - intros s l Hs. rewrite !lookup_insert in Hs.
    repeat case_decide; simplify_eq;
      try (split; [lia | rewrite !lookup_insert; repeat case_decide; done || lia]).
    destruct (H1 s l Hs) as [Hlt Hl]. split; [lia|].
    rewrite !lookup_insert_ne by lia. done.
  - intros s1 s2 l Hs1 Hs2. rewrite !lookup_insert in Hs1, Hs2.
    repeat case_decide; simplify_eq; try done; try lia;
      try (eapply H2; eassumption);
      repeat match goal with
      | H : cbsList t !! _ = Some _ |- _ => apply H1 in H as [? _]
      end; lia.
  - intros l xs Hl. rewrite !lookup_insert in Hl.
    repeat case_decide; simplify_eq;
      try (split; [lia | split; [constructor | intros ? []]]).
    destruct (H3 l xs Hl) as (Hlt & Hnd & Hb). split; [lia|]. auto.
Qed.

Lemma wf_processSignal s t : wf t -> wf (fst (processSignal s t)).
Proof.
  intros H. rewrite processSignal_state.
  destruct (cbsList t !! s); [destruct (is_kill s)|]; auto using wf_truncateKill.
Qed.

Lemma wf_exec ops t : wf t -> wf (fst (exec ops t)).
Proof.
  revert t. induction ops as [|[s cb|r|s] ops IH]; intros t Ht; simpl; auto.
  - apply IH, wf_OnSignal, Ht.
  - apply IH, wf_runRemover, Ht.
  - pose proof (wf_processSignal s t Ht) as H'.
    destruct (processSignal s t) as [t1 ev1]. simpl in *.
    specialize (IH t1 H'). destruct (exec ops t1). exact IH.
Qed.

(** Contents after the operations. *)
Lemma contents_OnSignal s c t σ :
  wf t ->
  contents (fst (OnSignal s c t)) σ =
    if decide (σ = s) then contents t σ ++ [mkElement (nextElem t) c]
    else contents t σ.
Proof.
  intros (H1 & H2 & H3). destruct (cbsList t !! s) as [l|] eqn:E.
  - rewrite (OnSignal_some t s c l E). unfold contents; simpl.
    case_decide as Hσ.
    + subst σ. rewrite E, lookup_alter_eq.
      destruct (H1 s l E) as [_ [xs Hxs]]. rewrite Hxs. reflexivity.
    + destruct (cbsList t !! σ) as [l'|] eqn:E'; [|reflexivity].
      assert (l <> l') by (intros <-; apply Hσ; eapply H2; eauto).
      rewrite lookup_alter_ne by done. reflexivity.
  - rewrite (OnSignal_none t s c E). unfold contents; simpl.
    rewrite lookup_insert. case_decide as Hσ.
    + subst σ. rewrite decide_True by done. rewrite E, lookup_insert_eq. reflexivity.
    + rewrite decide_False by done.
      destruct (cbsList t !! σ) as [l'|] eqn:E'; [|reflexivity].
      destruct (H1 σ l' E') as [Hlt _]. rewrite lookup_insert_ne by lia. reflexivity.
Qed.

Lemma cbsList_OnSignal_mono s c t σ l :
  cbsList t !! σ = Some l -> cbsList (fst (OnSignal s c t)) !! σ = Some l.
Proof.
  intros Hσ. destruct (cbsList t !! s) as [l'|] eqn:E.
  - rewrite (OnSignal_some t s c l' E). exact Hσ.
  - rewrite (OnSignal_none t s c E). simpl.
    rewrite lookup_insert_ne; [exact Hσ|]. intros ->. congruence.
Qed.

Lemma OnSignal_remover s c t :
  cbsList (fst (OnSignal s c t)) !! s = Some (rlist (snd (OnSignal s c t))) /\
  relem (snd (OnSignal s c t)) = nextElem t /\
  nextElem (fst (OnSignal s c t)) = S (nextElem t) /\
  cbsList (fst (OnSignal s c t)) = <[s := rlist (snd (OnSignal s c t))]> (cbsList t).
Proof.
  destruct (cbsList t !! s) as [l'|] eqn:E.
  - rewrite (OnSignal_some t s c l' E). simpl. split; [done|]. split; [done|].
    split; [done|]. rewrite insert_id; done.
  - rewrite (OnSignal_none t s c E). simpl. rewrite lookup_insert_eq. done.
Qed.

Lemma contents_runRemover_reg r s t σ :
  wf t -> cbsList t !! s = Some (rlist r) ->
  contents (runRemover r t) σ =
    if decide (σ = s) then List.filter (fun x => negb (eid x =? relem r)) (contents t σ)
    else contents t σ.
Proof.
  intros (H1 & H2 & H3) Hs. unfold contents, runRemover, listRemove; simpl.
  case_decide as Hσ.
  - subst σ. rewrite Hs, lookup_alter_eq.
    destruct (lists t !! rlist r); reflexivity.
  - destruct (cbsList t !! σ) as [l'|] eqn:E'; [|reflexivity].
    assert (rlist r <> l') by (intros <-; apply Hσ; eapply H2; eauto).
    rewrite lookup_alter_ne by done. reflexivity.
Qed.

Lemma cbsList_runRemover r t : cbsList (runRemover r t) = cbsList t.
Proof. reflexivity. Qed.

Lemma filter_drop_fresh xs e c :
  (forall x, In x xs -> eid x < e) ->
  List.filter (fun x => negb (eid x =? e)) (xs ++ [mkElement e c]) = xs.
Proof.
  intros Hb. rewrite List.filter_app. simpl. rewrite Nat.eqb_refl. simpl.
  rewrite app_nil_r. induction xs as [|x xs IH]; [reflexivity|]. simpl.
  assert (eid x < e) by (apply Hb; left; done).
  replace (eid x =? e) with false by (symmetry; apply Nat.eqb_neq; lia). simpl.
  f_equal. apply IH. intros y Hy. apply Hb. right. done.
Qed.

Lemma contents_bound t σ x :
  wf t -> In x (contents t σ) -> eid x < nextElem t.
Proof.
  intros (H1 & H2 & H3). unfold contents.
  destruct (cbsList t !! σ) as [l|]; [|intros []].
  destruct (lists t !! l) as [xs|] eqn:E; [|intros []]. simpl.
  apply (H3 l xs E).
Qed.

(** Registration and removal facts used below, in one place. *)
Lemma OnSignal_facts s c t t' r :
  wf t -> OnSignal s c t = (t', r) ->
  wf t' /\
  (forall σ, contents t' σ =
     if decide (σ = s) then contents t σ ++ [mkElement (nextElem t) c] else contents t σ) /\
  cbsList t' !! s = Some (rlist r) /\ relem r = nextElem t /\ nextElem t' = S (nextElem t) /\
  (forall σ l, cbsList t !! σ = Some l -> cbsList t' !! σ = Some l).
Proof.
  intros Hw E.
  pose proof (wf_OnSignal s c t Hw) as W. pose proof (contents_OnSignal s c t) as C.
  pose proof (OnSignal_remover s c t) as (R1 & R2 & R3 & _).
  pose proof (cbsList_OnSignal_mono s c t) as M.
  rewrite E in W, C, R1, R2, R3, M. simpl in *. split; [exact W|].
  split; [intros σ; apply C, Hw|]. auto.
Qed.

Lemma runRemover_facts r s t σ :
  wf t -> cbsList t !! s = Some (rlist r) ->
  wf (runRemover r t) /\ cbsList (runRemover r t) = cbsList t /\
  contents (runRemover r t) σ =
    if decide (σ = s) then List.filter (fun x => negb (eid x =? relem r)) (contents t σ)
    else contents t σ.
Proof.
  intros Hw Hs. split; [by apply wf_runRemover|]. split; [reflexivity|].
  by apply contents_runRemover_reg.
Qed.

(* ------------------------------------------------------------------ *)
(** ** Claims *)

Example process_lifo :
  let '(t1, _) := OnSignal SIGUSR1 7 trap_init in
  let '(t2, _) := OnSignal SIGUSR1 8 t1 in
  map value (invoked (snd (processSignal SIGUSR1 t2))) = [8; 7].
Proof. reflexivity. Qed.

(** C7: [OnKill(cb)] registers [cb] on SIGKILL, SIGQUIT and SIGINT (and on
    nothing else), and calling the combined remover takes all three
    registrations out again, leaving every list as it was before. *)
Theorem OnKill_registers_all_three (c : Callback) (t : Trap) :
  wf t ->
  let '(t3, rs) := OnKill c t in
  length rs = 3 /\
  (forall σ, map value (contents t3 σ) =
     map value (contents t σ) ++ (if is_kill σ then [c] else [])) /\
  (forall σ, contents (runRemovers rs t3) σ = contents t σ).
Proof.
  intros Hw. unfold OnKill.
  destruct (OnSignal SIGKILL c t) as [t1 r1] eqn:E1.
  destruct (OnSignal SIGQUIT c t1) as [t2 r2] eqn:E2.
  destruct (OnSignal SIGINT c t2) as [t3 r3] eqn:E3.
  destruct (OnSignal_facts _ _ _ _ _ Hw E1) as (W1 & C1 & K1 & I1 & N1 & M1).
  destruct (OnSignal_facts _ _ _ _ _ W1 E2) as (W2 & C2 & K2 & I2 & N2 & M2).
  destruct (OnSignal_facts _ _ _ _ _ W2 E3) as (W3 & C3 & K3 & I3 & N3 & M3).
  split; [reflexivity|]. split.
  - intros σ. rewrite C3, C2, C1. unfold is_kill, SIGKILL, SIGINT, SIGQUIT.
    destruct (decide (σ = 2)) as [->|]; [simpl; rewrite !map_app; reflexivity|].
    destruct (decide (σ = 3)) as [->|]; [simpl; rewrite !map_app; reflexivity|].
    destruct (decide (σ = 9)) as [->|]; [simpl; rewrite !map_app; reflexivity|].
    replace ((σ =? 9) || (σ =? 2) || (σ =? 3)) with false
      by (symmetry; rewrite !orb_false_iff, !Nat.eqb_neq; tauto).
    rewrite app_nil_r. reflexivity.
  - intros σ. unfold runRemovers. simpl.
    assert (K1' : cbsList t3 !! SIGKILL = Some (rlist r1)) by auto.
    assert (K2' : cbsList t3 !! SIGQUIT = Some (rlist r2)) by auto.
    destruct (runRemover_facts r1 SIGKILL t3 σ W3 K1') as (V1 & B1 & D1).
    assert (K2'' : cbsList (runRemover r1 t3) !! SIGQUIT = Some (rlist r2)) by congruence.
    destruct (runRemover_facts r2 SIGQUIT _ σ V1 K2'') as (V2 & B2 & D2).
    assert (K3'' : cbsList (runRemover r2 (runRemover r1 t3)) !! SIGINT = Some (rlist r3))
      by congruence.
    destruct (runRemover_facts r3 SIGINT _ σ V2 K3'') as (V3 & B3 & D3).
    rewrite D3, D2, D1, C3, C2, C1, I1, I2, I3, N2, N1.
    assert (Hb : forall x, In x (contents t σ) -> eid x < nextElem t)
      by (intros x; apply contents_bound, Hw).
    unfold SIGKILL, SIGINT, SIGQUIT.
    destruct (decide (σ = 2)) as [->|]; [|destruct (decide (σ = 3)) as [->|];
      [|destruct (decide (σ = 9)) as [->|]]]; simpl; try reflexivity;
      apply filter_drop_fresh; intros x Hx; specialize (Hb x Hx); lia.
Qed.

Lemma contents_NoDup t σ : wf t -> NoDup (map eid (contents t σ)).
Proof.
  intros (H1 & H2 & H3). unfold contents.
  destruct (cbsList t !! σ) as [l|]; [|constructor].
  destruct (lists t !! l) as [xs|] eqn:E; [|constructor]. simpl.
  apply (H3 l xs E).
Qed.

Lemma NoDup_map_eid_rev xs : NoDup (map eid xs) -> NoDup (map eid (rev xs)).
Proof.
  intros H. rewrite map_rev. apply NoDup_ListNoDup, NoDup_rev, NoDup_ListNoDup, H.
Qed.

Lemma invoke_while_locked_tail xs :
  invoke_while_locked true (map EInvoke xs ++ [EUnlock]) =
    match xs with [] => false | _ :: _ => true end.
Proof. destruct xs; reflexivity. Qed.

(** C10: dispatching a signal outside the kill class leaves the whole
    registry as it is, so every later dispatch of it calls the same
    callbacks in the same LIFO order; dispatching a signal that has no
    list only takes and releases [mux]. *)
Theorem processSignal_nonkill_frame (s : nat) (t : Trap) (n : nat) :
  (cbsList t !! s = None -> processSignal s t = (t, [ELock; EUnlock])) /\
  (is_kill s = false ->
     fst (processSignal s t) = t /\
     fst (exec (repeat (OpDisp s) n) t) = t /\
     invoked (snd (exec (repeat (OpDisp s) n) t)) = concat (repeat (rev (contents t s)) n)).
Proof.
  split.
  - intros Hn. unfold processSignal. rewrite Hn. reflexivity.
  - intros Hk.
    assert (Hst : fst (processSignal s t) = t).
    { rewrite processSignal_state. rewrite Hk. destruct (cbsList t !! s); reflexivity. }
    split; [exact Hst|].
    induction n as [|n IH]; [split; reflexivity|].
    simpl repeat. rewrite exec_cons_disp. simpl. rewrite Hst.
    destruct IH as [IH1 IH2]. split; [exact IH1|].
    rewrite invoked_app, IH2, processSignal_invoked. reflexivity.
Qed.

(** C6 (as claimed): no callback runs while [mux] is held.  False: the
    dispatch of SIGUSR1 with one registered callback runs it between
    [mux.Lock()] and the deferred [mux.Unlock()]. *)
Lemma processSignal_invokes_under_lock_cex :
  ~ (forall s t, invoke_while_locked false (snd (processSignal s t)) = false).
Proof.
  intros H. specialize (H SIGUSR1 (fst (OnSignal SIGUSR1 0 trap_init))).
  vm_compute in H. discriminate.
Qed.

(** C5 (as claimed): with no panic, [Deferrer] runs every callback
    registered on a kill-class signal.  False: a callback registered with
    [OnSignal(syscall.SIGQUIT, cb)] alone is not in the SIGINT list, and
    the synthetic SIGINT dispatch does not run it. *)
Lemma Deferrer_no_fault_skips_quit_cex :
  ~ (forall w w' ev, Deferrer None w = Some (w', ev) -> running w = true ->
       forall s x, is_kill s = true -> In x (contents (trap w) s) -> In x (invoked ev)).
Proof.
  intros H.
  set (w0 := mkWorld (fst (OnSignal SIGQUIT 0 trap_init)) [] false true false).
  destruct (Deferrer None w0) as [[w' ev]|] eqn:E; [|vm_compute in E; discriminate].
  specialize (H w0 w' ev E eq_refl SIGQUIT (mkElement 0 0) eq_refl).
  vm_compute in E. injection E as _ <-. vm_compute in H.
  exact (H (or_introl eq_refl)).
Qed.

(** C5 (amended): [Deferrer] ends in [os.Exit(1)] exactly when it
    recovered a panic, and that exit is the very last event, after every
    callback and after the dispatcher drained the channel and ran
    [wait.Done()]; without a panic it returns after [wait.Done()] with no
    exit at all.  The callbacks it causes to run are those of the signals
    still pending in the channel, in channel order, then those of the
    SIGINT list; with nothing pending, exactly the SIGINT list, last
    registered first, each once. *)
Theorem Deferrer_exit (p : option string) (w w' : World) (ev : list Event) :
  Deferrer p w = Some (w', ev) -> running w = true ->
  running w' = false /\ chq w' = [] /\
  invoked ev = invoked (snd (exec (map OpDisp (chq w ++ [SIGINT])) (trap w))) /\
  (chq w = [] -> wf (trap w) ->
     invoked ev = rev (contents (trap w) SIGINT) /\ NoDup (map eid (invoked ev))) /\
  (p = None -> (forall n, ~ In (EExit n) ev) /\ exists pre, ev = pre ++ [EDone]) /\
  (forall m, p = Some m ->
     exists pre, ev = pre ++ [EDone; EExit 1] /\ (forall n, ~ In (EExit n) pre) /\
                 invoked pre = invoked ev).
Proof.
  intros HD Hr. destruct (closed w) eqn:Hc.
  { unfold Deferrer in HD. rewrite Hc in HD. discriminate. }
  rewrite (Deferrer_eq p w Hc Hr) in HD. injection HD as <- <-.
  assert (Hi : invoked (match p with Some m => [EPanic m] | None => [] end ++
                 (snd (drain (chq w ++ [SIGINT]) (trap w)) ++ [EDone]) ++
                 match p with Some _ => [EExit 1] | None => [] end) =
               invoked (snd (exec (map OpDisp (chq w ++ [SIGINT])) (trap w)))).
  { rewrite !invoked_app, drain_invoked. destruct p; simpl; rewrite ?app_nil_r; reflexivity. }
  split; [reflexivity|]. split; [reflexivity|]. split; [exact Hi|]. split; [|split].
  - intros Hq Hw.
    assert (Hs : invoked (snd (exec (map OpDisp (chq w ++ [SIGINT])) (trap w))) =
                 rev (contents (trap w) SIGINT)).
    { rewrite Hq. simpl map. rewrite exec_cons_disp. cbn [fst snd exec].
      rewrite invoked_app, processSignal_invoked, app_nil_r. reflexivity. }
    rewrite Hi, Hs. split; [reflexivity|].
    apply NoDup_map_eid_rev, contents_NoDup, Hw.
  - intros ->. simpl. rewrite app_nil_r. split.
    + intros n. rewrite in_app_iff. intros [H|[H|[]]]; [|discriminate].
      exact (drain_no_exit _ _ n H).
    + eexists. reflexivity.
  - intros m ->. exists ([EPanic m] ++ snd (drain (chq w ++ [SIGINT]) (trap w))).
    split; [simpl; rewrite <- app_assoc; reflexivity|]. split.
    + intros n. simpl. intros [H|H]; [discriminate|].
      exact (drain_no_exit _ _ n H).
    + rewrite !invoked_app. simpl. rewrite !app_nil_r. reflexivity.
Qed.


(** C9: once [Deferrer] returned, the dispatcher goroutine has stopped,
    and whatever happens next (signals delivered again into the channel,
    registrations, removals, another [Deferrer]) calls no callback and
    never restarts it. *)
Theorem Deferrer_no_dispatch_after (p : option string) (w w' : World) (ev : list Event) :
  Deferrer p w = Some (w', ev) ->
  running w' = false /\
  forall tr w'', wsteps w' tr w'' -> invoked tr = [] /\ running w'' = false.
Proof.
  intros HD.
  assert (Hr : running w' = false).
  { unfold Deferrer in HD. destruct (closed w); [discriminate|].
    unfold waitLoop in HD. simpl in HD. destruct (running w).
    - destruct (drain (chq w ++ [SIGINT]) (trap w)). injection HD as <- _. reflexivity.
    - injection HD as <- _. reflexivity. }
  split; [exact Hr|]. intros tr w'' Hs. exact (wsteps_stopped w' tr w'' Hs Hr).
Qed.

(** C3 (as claimed): after [Deferrer], every callback registered on a
    kill-class signal has run exactly once.  False: a callback registered
    with [OnSignal(syscall.SIGQUIT, cb)] alone is not in the SIGINT list,
    and the synthetic SIGINT dispatch never runs it. *)
Lemma Deferrer_skips_quit_only_cex :
  ~ (forall p w w' ev, Deferrer p w = Some (w', ev) ->
       forall s, is_kill s = true -> forall x, In x (contents (trap w) s) ->
       length (List.filter (fun y => eid y =? eid x) (invoked ev)) = 1).
Proof.
  intros H.
  set (w0 := mkWorld (fst (OnSignal SIGQUIT 0 trap_init)) [] false true false).
  destruct (Deferrer None w0) as [[w' ev]|] eqn:E; [|vm_compute in E; discriminate].
  specialize (H None w0 w' ev E SIGQUIT eq_refl (mkElement 0 0)).
  vm_compute in E. injection E as _ <-. vm_compute in H.
  discriminate (H (or_introl eq_refl)).
Qed.

(** C3 (amended): [Deferrer] always sends the synthetic SIGINT; with no
    other signal pending, the callbacks it causes to run are exactly the
    ones in the SIGINT list, last registered first, each once, whether or
    not a panic is being recovered. *)
Theorem Deferrer_runs_interrupt_list (p : option string) (w w' : World) (ev : list Event) :
  Deferrer p w = Some (w', ev) -> running w = true -> chq w = [] -> wf (trap w) ->
  invoked ev = rev (contents (trap w) SIGINT) /\ NoDup (map eid (invoked ev)).
Proof.
  intros HD Hr Hq Hw. destruct (closed w) eqn:Hc.
  { unfold Deferrer in HD. rewrite Hc in HD. discriminate. }
  rewrite (Deferrer_eq p w Hc Hr) in HD. injection HD as _ <-.
  rewrite Hq. simpl drain. pose proof (processSignal_invoked SIGINT (trap w)) as HI.
  destruct (processSignal SIGINT (trap w)) as [t1 ev1]. simpl in *.
  assert (Hinv : invoked (match p with Some m => [EPanic m] | None => [] end ++
                         ((ev1 ++ []) ++ [EDone]) ++
                         match p with Some _ => [EExit 1] | None => [] end) =
                 rev (contents (trap w) SIGINT)).
  { rewrite !invoked_app, app_nil_r, HI.
    destruct p; simpl; rewrite ?app_nil_r; reflexivity. }
  rewrite Hinv. split; [reflexivity|].
  apply NoDup_map_eid_rev, contents_NoDup, Hw.
Qed.

(** C8 (as claimed): a list exists for a signal exactly when a callback
    was registered for it.  False: after registering on SIGINT only and
    dispatching SIGINT, [cbsList] also has lists for SIGQUIT and SIGKILL. *)
Lemma kill_dispatch_creates_lists_cex :
  ~ (forall ops s, is_Some (cbsList (fst (exec ops trap_init)) !! s) <->
                   exists cb, In (OpReg s cb) ops).
Proof.
  intros H. destruct (H [OpReg SIGINT 0; OpDisp SIGINT] SIGQUIT) as [H1 _].
  destruct H1 as [cb Hin].
  - vm_compute. eexists. reflexivity.
  - simpl in Hin. destruct Hin as [E|[E|[]]]; discriminate.
Qed.

(** A consequence: registering on SIGQUIT after that dispatch finds the
    list and does not call [signal.Notify] for SIGQUIT. *)
Example quit_not_notified_after_interrupt :
  notified (fst (OnSignal SIGQUIT 1
     (fst (exec [OpReg SIGINT 0; OpDisp SIGINT] trap_init)))) = [SIGINT].
Proof. reflexivity. Qed.
(** C8: a SIGINT dispatch installs a list for SIGQUIT even when nothing
    was registered on it, so a later [OnSignal(syscall.SIGQUIT, cb)] finds
    that list and never calls [signal.Notify] for SIGQUIT, whereas the
    same registration without the dispatch would have. *)
Theorem interrupt_dispatch_suppresses_quit_notify (t : Trap) (cb : Callback) :
  (forall s, In s (notified t) -> is_Some (cbsList t !! s)) ->
  cbsList t !! SIGQUIT = None -> is_Some (cbsList t !! SIGINT) ->
  In SIGQUIT (notified (fst (OnSignal SIGQUIT cb t))) /\
  is_Some (cbsList (fst (processSignal SIGINT t)) !! SIGQUIT) /\
  ~ In SIGQUIT (notified (fst (OnSignal SIGQUIT cb (fst (processSignal SIGINT t))))).
Proof.
  intros Hn Hq [l Hl].
  assert (Ht : fst (processSignal SIGINT t) = truncateKill t).
  { rewrite processSignal_state, Hl. reflexivity. }
  assert (Hs : cbsList (truncateKill t) !! SIGQUIT = Some (S (S (nextList t)))).
  { rewrite truncateKill_eq. simpl. apply lookup_insert_eq. }
  split; [|split].
  - rewrite (OnSignal_none t SIGQUIT cb Hq). simpl. apply in_app_iff. right. left. reflexivity.
  - rewrite Ht, Hs. eexists. reflexivity.
  - rewrite Ht, (OnSignal_some _ SIGQUIT cb _ Hs). simpl.
    intros H. destruct (Hn SIGQUIT H) as [? Hc]. congruence.
Qed.



Lemma lists_OnSignal s c t t1 r :
  wf t -> OnSignal s c t = (t1, r) ->
  lists t1 !! rlist r = Some (contents t s ++ [mkElement (nextElem t) c]) /\
  forall l, l <> rlist r -> lists t1 !! l = lists t !! l.
Proof.
  intros (H1 & H2 & H3) E. destruct (cbsList t !! s) as [l0|] eqn:Hs.
  - rewrite (OnSignal_some t s c l0 Hs) in E. injection E as <- <-. simpl.
    unfold contents. rewrite Hs. destruct (H1 s l0 Hs) as [_ [xs Hxs]].
    rewrite lookup_alter_eq, Hxs. split; [reflexivity|].
    intros l Hl. apply lookup_alter_ne. congruence.
  - rewrite (OnSignal_none t s c Hs) in E. injection E as <- <-. simpl.
    unfold contents. rewrite Hs, lookup_insert_eq. split; [reflexivity|].
    intros l Hl. apply lookup_insert_ne. congruence.
Qed.

Lemma absent_OnSignal e s c t : absent e t -> absent e (fst (OnSignal s c t)).
Proof.
  intros [Hlt Hn]. destruct (cbsList t !! s) as [l0|] eqn:Hs.
  - rewrite (OnSignal_some t s c l0 Hs). split; simpl; [lia|].
    intros l xs Hl. apply lookup_alter_Some in Hl as [[<- [ys [Hys ->]]] | [_ Hl]].
    + rewrite map_app, in_app_iff. intros [Hin|[Heq|[]]]; [exact (Hn _ _ Hys Hin)|].
      simpl in Heq. lia.
    + exact (Hn l xs Hl).
  - rewrite (OnSignal_none t s c Hs). split; simpl; [lia|].
    intros l xs Hl. rewrite lookup_insert in Hl. case_decide.
    + injection Hl as <-. simpl. intros [Heq|[]]. lia.
    + exact (Hn l xs Hl).
Qed.

Lemma absent_runRemover e r t : absent e t -> absent e (runRemover r t).
Proof.
  intros [Hlt Hn]. split; [exact Hlt|]. simpl.
  intros l xs Hl. apply lookup_alter_Some in Hl as [[<- [ys [Hys ->]]] | [_ Hl]].
  - intros Hin. apply in_map_iff in Hin as [x [Hx Hin]].
    apply filter_In in Hin as [Hin _]. apply (Hn _ _ Hys), in_map_iff. eauto.
  - exact (Hn l xs Hl).
Qed.

Lemma absent_processSignal e s t :
  absent e t ->
  absent e (fst (processSignal s t)) /\ ~ In e (map eid (invoked (snd (processSignal s t)))).
Proof.
  intros [Hlt Hn]. rewrite processSignal_invoked, processSignal_state. split.
  - destruct (cbsList t !! s); [destruct (is_kill s)|]; try (split; assumption).
    rewrite truncateKill_eq. split; simpl; [exact Hlt|].
    intros l xs Hl. rewrite !lookup_insert in Hl.
    repeat case_decide; simplify_eq; [intros []..|]. exact (Hn l xs Hl).
  - unfold contents. destruct (cbsList t !! s) as [l|]; [|intros []].
    destruct (lists t !! l) as [xs|] eqn:Hxs; [|intros []]. simpl.
    rewrite map_rev. intros Hin. apply in_rev in Hin. exact (Hn l xs Hxs Hin).
Qed.

Lemma absent_exec e ops t :
  absent e t -> ~ In e (map eid (invoked (snd (exec ops t)))).
Proof.
  revert t. induction ops as [|[s cb|r|s] ops IH]; intros t Ha; simpl.
  - intros [].
  - apply IH, absent_OnSignal, Ha.
  - apply IH, absent_runRemover, Ha.
  - destruct (absent_processSignal e s t Ha) as [Ha' Hni].
    destruct (processSignal s t) as [t1 ev1]. simpl in *.
    specialize (IH t1 Ha'). destruct (exec ops t1) as [t2 ev2]. simpl in *.
    rewrite invoked_app, map_app, in_app_iff. tauto.
Qed.

Lemma filter_idem (f : Element -> bool) xs :
  List.filter f (List.filter f xs) = List.filter f xs.
Proof.
  induction xs as [|x xs IH]; simpl; [reflexivity|].
  destruct (f x) eqn:E; simpl; rewrite ?E, ?IH; reflexivity.
Qed.

Lemma runRemover_twice r t : runRemover r (runRemover r t) = runRemover r t.
Proof.
  unfold runRemover, listRemove. simpl. f_equal.
  apply map_eq. intros i. rewrite !lookup_alter.
  case_decide; [|reflexivity]. subst i. rewrite decide_True by done.
  destruct (lists t !! rlist r); simpl; [rewrite filter_idem|]; reflexivity.
Qed.

Lemma runRemover_unreachable r t σ :
  (forall σ', cbsList t !! σ' <> Some (rlist r)) ->
  contents (runRemover r t) σ = contents t σ.
Proof.
  intros Hu. unfold contents, runRemover, listRemove. simpl.
  destruct (cbsList t !! σ) as [l|] eqn:E; [|reflexivity].
  rewrite lookup_alter_ne; [reflexivity|]. intros Heq. apply (Hu σ).
  rewrite E, Heq. reflexivity.
Qed.

Lemma exec_app_fst ops1 ops2 t :
  fst (exec (ops1 ++ ops2) t) = fst (exec ops2 (fst (exec ops1 t))).
Proof.
  revert t. induction ops1 as [|[s cb|r|s] ops1 IH]; intros t; try apply IH; [reflexivity|].
  simpl app. rewrite !exec_cons_disp. apply IH.
Qed.

Lemma rem_inv_start s c t t1 r :
  wf t -> OnSignal s c t = (t1, r) -> rem_inv s r t1.
Proof.
  intros Hw E.
  destruct (OnSignal_facts _ _ _ _ _ Hw E) as (W1 & _ & K1 & I1 & N1 & _).
  destruct (lists_OnSignal _ _ _ _ _ Hw E) as [_ L2].
  split; [exact W1|]. split; [apply (proj1 W1 s _ K1)|]. split; [lia|]. split.
  - intros l xs Hne Hl. rewrite L2 in Hl by exact Hne.
    destruct Hw as (_ & _ & H3). destruct (H3 l xs Hl) as (_ & _ & Hb).
    rewrite I1. intros Hin. apply in_map_iff in Hin as [x [Hx Hin]].
    specialize (Hb x Hin). lia.
  - intros σ Hne Hσ. apply Hne. destruct W1 as (_ & H2 & _). eapply H2; eassumption.
Qed.

Lemma rem_inv_OnSignal s r σ c t : rem_inv s r t -> rem_inv s r (fst (OnSignal σ c t)).
Proof.
  intros (Hw & Hl & He & Hx & Hc).
  split; [apply wf_OnSignal, Hw|].
  destruct (cbsList t !! σ) as [l0|] eqn:E.
  - rewrite (OnSignal_some t σ c l0 E). simpl.
    split; [exact Hl|]. split; [lia|]. split; [|exact Hc].
    intros l xs Hne Hl'. apply lookup_alter_Some in Hl' as [[<- [ys [Hys ->]]] | [_ Hl']].
    + rewrite map_app, in_app_iff. intros [H|[H|[]]]; [exact (Hx _ _ Hne Hys H)|].
      simpl in H. lia.
    + exact (Hx _ _ Hne Hl').
  - rewrite (OnSignal_none t σ c E). simpl.
    split; [lia|]. split; [lia|]. split.
    + intros l xs Hne Hl'. rewrite lookup_insert in Hl'. case_decide.
      * injection Hl' as <-. simpl. intros [Hq|[]]. lia.
      * exact (Hx _ _ Hne Hl').
    + intros σ' Hne. rewrite lookup_insert. case_decide.
      * intros [= Hq]. lia.
      * exact (Hc σ' Hne).
Qed.

Lemma rem_inv_runRemover s r r' t : rem_inv s r t -> rem_inv s r (runRemover r' t).
Proof.
  intros (Hw & Hl & He & Hx & Hc).
  split; [apply wf_runRemover, Hw|]. simpl.
  split; [exact Hl|]. split; [exact He|]. split; [|exact Hc].
  intros l xs Hne Hl'. apply lookup_alter_Some in Hl' as [[<- [ys [Hys ->]]] | [_ Hl']].
  - intros H. apply in_map_iff in H as [x [Hxe Hin]]. apply filter_In in Hin as [Hin _].
    apply (Hx _ _ Hne Hys). apply in_map_iff. eauto.
  - exact (Hx _ _ Hne Hl').
Qed.

Lemma rem_inv_truncateKill s r t : rem_inv s r t -> rem_inv s r (truncateKill t).
Proof.
  intros (Hw & Hl & He & Hx & Hc).
  split; [apply wf_truncateKill, Hw|]. rewrite truncateKill_eq. simpl.
  split; [lia|]. split; [exact He|]. split.
  - intros l xs Hne Hl'. rewrite !lookup_insert in Hl'.
    repeat case_decide; try (injection Hl' as <-; intros []).
    exact (Hx _ _ Hne Hl').
  - intros σ Hne. rewrite !lookup_insert.
    repeat case_decide; try (intros [= H']; lia). exact (Hc σ Hne).
Qed.

Lemma rem_inv_processSignal s r σ t :
  rem_inv s r t -> rem_inv s r (fst (processSignal σ t)).
Proof.
  intros H. rewrite processSignal_state.
  destruct (cbsList t !! σ); [destruct (is_kill σ)|]; auto using rem_inv_truncateKill.
Qed.

Lemma rem_inv_invoked s r σ t :
  rem_inv s r t -> σ <> s -> ~ In (relem r) (map eid (invoked (snd (processSignal σ t)))).
Proof.
  intros (_ & _ & _ & Hx & Hc) Hne. rewrite processSignal_invoked, map_rev.
  rewrite <- in_rev. unfold contents.
  destruct (cbsList t !! σ) as [l|] eqn:E; [|intros []].
  destruct (lists t !! l) as [xs|] eqn:Hxs; [|intros []]. simpl.
  apply (Hx l xs); [|exact Hxs]. intros ->. exact (Hc σ Hne E).
Qed.

Lemma rem_inv_exec s r ops t :
  rem_inv s r t ->
  rem_inv s r (fst (exec ops t)) /\
  ((forall σ, In (OpDisp σ) ops -> σ <> s) ->
   ~ In (relem r) (map eid (invoked (snd (exec ops t))))).
Proof.
  revert t. induction ops as [|[σ cb|r'|σ] ops IH]; intros t H; simpl.
  - split; [exact H|]. intros _ [].
  - destruct (IH _ (rem_inv_OnSignal s r σ cb t H)) as [H1 H2].
    split; [exact H1|]. intros Hd. apply H2. intros σ' Hσ'. apply Hd. right. exact Hσ'.
  - destruct (IH _ (rem_inv_runRemover s r r' t H)) as [H1 H2].
    split; [exact H1|]. intros Hd. apply H2. intros σ' Hσ'. apply Hd. right. exact Hσ'.
  - pose proof (rem_inv_processSignal s r σ t H) as H'.
    pose proof (rem_inv_invoked s r σ t H) as Hi.
    destruct (processSignal σ t) as [t1 ev1]. simpl in *.
    destruct (IH _ H') as [H1 H2]. destruct (exec ops t1) as [t2 ev2]. simpl in *.
    split; [exact H1|]. intros Hd. rewrite invoked_app, map_app, in_app_iff.
    intros [Hin|Hin].
    + apply Hi; [apply Hd; left; reflexivity|exact Hin].
    + apply H2; [intros σ' Hσ'; apply Hd; right; exact Hσ'|exact Hin].
Qed.

Lemma rem_inv_absent s r t : rem_inv s r t -> absent (relem r) (runRemover r t).
Proof.
  intros (_ & _ & He & Hx & _). split; [exact He|]. simpl.
  intros l xs Hl. apply lookup_alter_Some in Hl as [[<- [ys [_ ->]]] | [Hne Hl]].
  - intros Hin. apply in_map_iff in Hin as [x [Hxe Hin]].
    apply filter_In in Hin as [_ Hf]. rewrite Hxe, Nat.eqb_refl in Hf. discriminate.
  - exact (Hx _ _ (not_eq_sym Hne) Hl).
Qed.

Lemma rem_inv_contents s r t σ x :
  rem_inv s r t ->
  In x (contents (runRemover r t) σ) <-> In x (contents t σ) /\ eid x <> relem r.
Proof.
  intros (_ & _ & _ & Hx & _). unfold contents. simpl.
  destruct (cbsList t !! σ) as [l|]; [|simpl; tauto].
  destruct (decide (l = rlist r)) as [->|Hne].
  - rewrite lookup_alter_eq. destruct (lists t !! rlist r) as [xs|]; simpl; [|tauto].
    rewrite filter_In, negb_true_iff, Nat.eqb_neq. tauto.
  - rewrite lookup_alter_ne by congruence.
    destruct (lists t !! l) as [xs|] eqn:Hxs; simpl; [|tauto].
    split; [|tauto]. intros Hin. split; [exact Hin|]. intros He.
    apply (Hx l xs Hne Hxs). rewrite <- He. apply in_map, Hin.
Qed.

Lemma rem_detached_OnSignal r σ c t : rem_detached r t -> rem_detached r (fst (OnSignal σ c t)).
Proof.
  intros [Hl Hc]. destruct (cbsList t !! σ) as [l0|] eqn:E.
  - rewrite (OnSignal_some t σ c l0 E). split; [exact Hl|exact Hc].
  - rewrite (OnSignal_none t σ c E). split; simpl; [lia|].
    intros σ'. rewrite lookup_insert. case_decide; [intros [= Hq]; lia|apply Hc].
Qed.

Lemma rem_detached_truncateKill r t : rem_detached r t -> rem_detached r (truncateKill t).
Proof.
  intros [Hl Hc]. rewrite truncateKill_eq. split; simpl; [lia|].
  intros σ. rewrite !lookup_insert. repeat case_decide; try (intros [= Hq]; lia). apply Hc.
Qed.

Lemma rem_detached_exec r ops t : rem_detached r t -> rem_detached r (fst (exec ops t)).
Proof.
  revert t. induction ops as [|[σ cb|r'|σ] ops IH]; intros t H.
  - exact H.
  - apply IH, rem_detached_OnSignal, H.
  - apply IH. exact H.
  - rewrite exec_cons_disp. apply IH. rewrite processSignal_state.
    destruct (cbsList t !! σ); [destruct (is_kill σ)|]; auto using rem_detached_truncateKill.
Qed.

Lemma rem_detached_kill s r σ t :
  rem_inv s r t -> is_kill s = true -> is_kill σ = true -> is_Some (cbsList t !! σ) ->
  rem_detached r (fst (processSignal σ t)).
Proof.
  intros (_ & Hl & _ & _ & Hc) Hks Hk [l Hσ].
  rewrite processSignal_state, Hσ, Hk, truncateKill_eq. split; simpl; [lia|].
  intros σ'. rewrite !lookup_insert. repeat case_decide; try (intros [= Hq]; lia).
  apply Hc. intros ->. unfold is_kill in Hks. rewrite !orb_true_iff, !Nat.eqb_eq in Hks.
  destruct Hks as [[?|?]|?]; congruence.
Qed.

(** C4: the remover returned by [OnSignal] may be called at any later
    point, after any other registrations (also of the same callback on the
    same signal), removals and dispatches.  It takes out exactly its own
    element, matched by identity, and leaves [cbsList] as it is; calling it
    again changes nothing; its callback is never called afterwards; if the
    signal was not dispatched before, the callback was never called at
    all; and once a kill-class dispatch replaced the list of a kill-class
    signal, calling it leaves every signal's list unchanged. *)
Theorem remover_once_never_invoked (s : nat) (c : Callback) (t t1 : Trap) (r : Remover)
    (ops1 : list Op) :
  wf t -> OnSignal s c t = (t1, r) ->
  cbsList (runRemover r (fst (exec ops1 t1))) = cbsList (fst (exec ops1 t1)) /\
  (forall σ x, In x (contents (runRemover r (fst (exec ops1 t1))) σ) <->
               In x (contents (fst (exec ops1 t1)) σ) /\ eid x <> relem r) /\
  runRemover r (runRemover r (fst (exec ops1 t1))) = runRemover r (fst (exec ops1 t1)) /\
  (forall ops2, ~ In (relem r)
     (map eid (invoked (snd (exec ops2 (runRemover r (fst (exec ops1 t1)))))))) /\
  ((forall σ, In (OpDisp σ) ops1 -> σ <> s) ->
     ~ In (relem r) (map eid (invoked (snd (exec ops1 t1))))) /\
  (is_kill s = true -> forall opsA σ opsB, ops1 = opsA ++ OpDisp σ :: opsB ->
     is_kill σ = true -> is_Some (cbsList (fst (exec opsA t1)) !! σ) ->
     forall σ', contents (runRemover r (fst (exec ops1 t1))) σ' =
                contents (fst (exec ops1 t1)) σ').
Proof.
  intros Hw E. pose proof (rem_inv_start s c t t1 r Hw E) as I1.
  destruct (rem_inv_exec s r ops1 t1 I1) as [I2 Hnot].
  split; [reflexivity|]. split; [intros σ x; exact (rem_inv_contents s r _ σ x I2)|].
  split; [apply runRemover_twice|]. split; [|split; [exact Hnot|]].
  - intros ops2. apply absent_exec. exact (rem_inv_absent s r _ I2).
  - intros Hks opsA σ opsB -> Hk Hσ σ'.
    destruct (rem_inv_exec s r opsA t1 I1) as [IA _].
    pose proof (rem_detached_kill s r σ _ IA Hks Hk Hσ) as D.
    rewrite exec_app_fst, exec_cons_disp.
    destruct (rem_detached_exec r opsB _ D) as [_ Hc].
    apply runRemover_unreachable, Hc.
Qed.



Lemma In_contents_runRemover r t σ x :
  In x (contents (runRemover r t) σ) -> In x (contents t σ).
Proof.
  unfold contents, runRemover, listRemove. simpl.
  destruct (cbsList t !! σ) as [l|]; [|intros []].
  rewrite lookup_alter. case_decide; [|auto]. subst l.
  destruct (lists t !! rlist r); simpl; [|intros []].
  intros Hx. apply filter_In in Hx as [Hx _]. exact Hx.
Qed.

Lemma In_contents_OnSignal s c t σ x :
  wf t -> In x (contents (fst (OnSignal s c t)) σ) ->
  In x (contents t σ) \/ (σ = s /\ x = mkElement (nextElem t) c).
Proof.
  intros Hw. rewrite (contents_OnSignal s c t σ Hw).
  case_decide; [|auto]. rewrite in_app_iff. intros [Hin|[Hin|[]]]; auto.
Qed.

Lemma contents_truncateKill t σ : is_kill σ = true -> contents (truncateKill t) σ = [].
Proof.
  intros Hk. unfold is_kill in Hk. rewrite !orb_true_iff, !Nat.eqb_eq in Hk.
  rewrite truncateKill_eq. unfold contents. simpl.
  destruct Hk as [[->| ->]| ->]; simpl; rewrite !lookup_insert;
    repeat (case_decide; simplify_eq; try lia); simpl;
    rewrite !lookup_insert; repeat (case_decide; try lia); reflexivity.
Qed.


Lemma InvC1_exec ops t done :
  InvC1 t done -> (forall s, In (OpDisp s) ops -> is_kill s = true) ->
  InvC1 (fst (exec ops t)) (done ++ invoked (snd (exec ops t))).
Proof.
  revert t done. induction ops as [|[s cb|r|s] ops IH]; intros t done Hi Hk; simpl.
  - rewrite app_nil_r. exact Hi.
  - apply IH; [|intros s' Hs'; apply Hk; right; exact Hs'].
    destruct Hi as (Hw & Hnd & Hlt & Hdis & Hkd).
    destruct (OnSignal_facts s cb t _ _ Hw (surjective_pairing _)) as (W1 & _ & _ & _ & N1 & _).
    split; [exact W1|]. split; [exact Hnd|]. split.
    { intros x Hx. rewrite N1. specialize (Hlt x Hx). lia. }
    split.
    + intros σ x Hσ Hx. apply In_contents_OnSignal in Hx; [|exact Hw].
      destruct Hx as [Hx|[_ ->]].
      * exact (Hdis σ x Hσ Hx).
      * simpl. intros Hin. apply in_map_iff in Hin as [y [Hy Hin]].
        specialize (Hlt y Hin). lia.
    + intros σ1 σ2 x y H1 H2 Hne Hx Hy.
      apply In_contents_OnSignal in Hx; [|exact Hw].
      apply In_contents_OnSignal in Hy; [|exact Hw].
      destruct Hx as [Hx|[-> ->]], Hy as [Hy|[-> ->]]; simpl.
      * exact (Hkd σ1 σ2 x y H1 H2 Hne Hx Hy).
      * pose proof (contents_bound t σ1 x Hw Hx). lia.
      * pose proof (contents_bound t σ2 y Hw Hy). lia.
      * congruence.
  - apply IH; [|intros s' Hs'; apply Hk; right; exact Hs'].
    destruct Hi as (Hw & Hnd & Hlt & Hdis & Hkd).
    split; [apply wf_runRemover, Hw|]. split; [exact Hnd|]. split; [exact Hlt|].
    split.
    + intros σ x Hσ Hx. apply In_contents_runRemover in Hx. exact (Hdis σ x Hσ Hx).
    + intros σ1 σ2 x y H1 H2 Hne Hx Hy.
      apply In_contents_runRemover in Hx. apply In_contents_runRemover in Hy.
      exact (Hkd σ1 σ2 x y H1 H2 Hne Hx Hy).
  - assert (Hks : is_kill s = true) by (apply Hk; left; reflexivity).
    assert (Hk' : forall s', In (OpDisp s') ops -> is_kill s' = true)
      by (intros s' Hs'; apply Hk; right; exact Hs').
    pose proof (processSignal_invoked s t) as HI.
    pose proof (processSignal_state s t) as HS.
    destruct (processSignal s t) as [t1 ev1]. simpl in HI, HS.
    assert (Hi1 : InvC1 t1 (done ++ invoked ev1)).
    { destruct Hi as (Hw & Hnd & Hlt & Hdis & Hkd). rewrite HI.
      destruct (cbsList t !! s) eqn:Hs; try rewrite Hks in HS; subst t1.
      - split; [apply wf_truncateKill, Hw|]. split; [|split; [|split]].
        + rewrite map_app. apply NoDup_app. split; [exact Hnd|]. split.
          * intros i Hi Hi'. apply list_elem_of_In in Hi, Hi'.
            apply in_map_iff in Hi' as [x [<- Hx]]. apply in_rev in Hx.
            exact (Hdis s x Hks Hx Hi).
          * apply NoDup_map_eid_rev, contents_NoDup, Hw.
        + intros x Hx. apply in_app_iff in Hx as [Hx|Hx].
          * exact (Hlt x Hx).
          * apply in_rev in Hx. exact (contents_bound t s x Hw Hx).
        + intros σ x Hσ Hx. rewrite contents_truncateKill in Hx by exact Hσ. destruct Hx.
        + intros σ1 σ2 x y H1 H2 _ Hx. rewrite contents_truncateKill in Hx by exact H1.
          destruct Hx.
      - unfold contents in *. rewrite Hs. simpl. rewrite app_nil_r.
        split; [exact Hw|]. auto. }
    specialize (IH t1 (done ++ invoked ev1) Hi1 Hk').
    destruct (exec ops t1) as [t2 ev2]. simpl in *.
    rewrite invoked_app, app_assoc. exact IH.
Qed.

(** C1: dispatching a kill-class signal that has a list leaves empty
    lists for SIGKILL, SIGINT and SIGQUIT and calls the list captured
    before that truncation, last registered first; and over any run of
    registrations, removals and kill-class dispatches, starting from a
    well-formed state whose kill-class lists share no element, no element
    is called twice. *)
Theorem kill_dispatch_at_most_once (s : nat) (t : Trap) (ops : list Op) :
  (is_kill s = true -> is_Some (cbsList t !! s) ->
     (forall σ, is_kill σ = true -> contents (fst (processSignal s t)) σ = []) /\
     invoked (snd (processSignal s t)) = rev (contents t s)) /\
  (wf t -> kill_disjoint t -> (forall s', In (OpDisp s') ops -> is_kill s' = true) ->
     NoDup (map eid (invoked (snd (exec ops t))))).
Proof.
  split.
  - intros Hk [l Hl]. split; [|apply processSignal_invoked].
    intros σ Hσ. rewrite processSignal_state, Hl, Hk. apply contents_truncateKill, Hσ.
  - intros Hw Hd Hops.
    assert (H0 : InvC1 t []).
    { split; [exact Hw|]. split; [constructor|]. split; [intros _ []|].
      split; [intros _ _ _ _ []|exact Hd]. }
    destruct (InvC1_exec ops t [] H0 Hops) as (_ & Hnd & _). exact Hnd.
Qed.

Section RegistrationOrder.
Variable s : nat.
Variable n0 : nat.



Lemma filter_mkE i live :
  List.filter (fun x => negb (eid x =? n0 + i)) (map (mkE n0) live) =
  map (mkE n0) (List.filter (fun p => negb (fst p =? i)) live).
Proof.
  induction live as [|[a c] live IH]; [reflexivity|]. simpl.
  destruct (a =? i) eqn:E.
  - apply Nat.eqb_eq in E. subst a. rewrite Nat.eqb_refl. exact IH.
  - apply Nat.eqb_neq in E.
    replace (n0 + a =? n0 + i) with false by (symmetry; apply Nat.eqb_neq; lia).
    simpl. f_equal. exact IH.
Qed.

Lemma filter_keep_all i (live : list (nat * Callback)) :
  (forall p, In p live -> fst p <> i) ->
  List.filter (fun p => negb (fst p =? i)) live = live.
Proof.
  induction live as [|p live IH]; intros H; [reflexivity|]. simpl.
  replace (fst p =? i) with false by
    (symmetry; apply Nat.eqb_neq, H; left; reflexivity).
  simpl. f_equal. apply IH. intros q Hq. apply H. right. exact Hq.
Qed.

Lemma InvR_runRegs ops t hs live cnt :
  InvR s n0 t hs live cnt ->
  exists cnt', InvR s n0 (fst (runRegs s ops t hs)) (snd (runRegs s ops t hs))
                    (liveRegs ops cnt live) cnt'.
Proof.
  revert t hs live cnt.
  induction ops as [|[cb|i] ops IH]; intros t hs live cnt Hi; simpl; [eauto| |].
  - destruct (OnSignal s cb t) as [t' h] eqn:E. apply IH.
    destruct Hi as (Hlen & Hn & Hb & [(Hs & -> & ->)|(l & Hs & Hl & Hh)]).
    + rewrite (OnSignal_none t s cb Hs) in E. injection E as <- <-.
      simpl in Hlen. subst cnt.
      split; [reflexivity|]. split; [simpl; lia|]. split.
      { intros p [<-|[]]. simpl. lia. }
      right. exists (nextList t). simpl. rewrite !lookup_insert_eq.
      split; [reflexivity|]. split.
      * unfold mkE. simpl. rewrite <- Hn. reflexivity.
      * intros i h Hih. simpl in Hih.
        apply list_lookup_singleton_Some in Hih as [-> <-]. f_equal. lia.
    + rewrite (OnSignal_some t s cb l Hs) in E. injection E as <- <-.
      split; [rewrite length_app; simpl; lia|]. split; [simpl; lia|]. split.
      { intros p Hp. apply in_app_iff in Hp as [Hp|[<-|[]]]; simpl; [|lia].
        specialize (Hb p Hp). lia. }
      right. exists l. simpl. split; [exact Hs|]. split.
      * rewrite lookup_alter_eq, Hl. simpl. rewrite map_app, Hn. reflexivity.
      * intros i h Hih. rewrite lookup_app in Hih.
        destruct (hs !! i) eqn:Ei.
        -- injection Hih as <-. exact (Hh i r Ei).
        -- apply lookup_ge_None in Ei.
           apply list_lookup_singleton_Some in Hih as [Hi0 <-]. f_equal. lia.
  - apply IH.
    destruct Hi as (Hlen & Hn & Hb & [(Hs & -> & ->)|(l & Hs & Hl & Hh)]).
    + simpl. split; [exact Hlen|]. split; [exact Hn|]. split; [intros _ []|].
      left. auto.
    + destruct (hs !! i) as [h|] eqn:Ei.
      * pose proof (Hh i h Ei) as ->.
        split; [exact Hlen|]. split; [exact Hn|]. split.
        { intros p Hp. apply filter_In in Hp as [Hp _]. auto. }
        right. exists l. simpl. split; [exact Hs|]. split; [|exact Hh].
        rewrite lookup_alter_eq, Hl. simpl. rewrite filter_mkE. reflexivity.
      * apply lookup_ge_None in Ei. rewrite filter_keep_all.
        -- split; [exact Hlen|]. split; [exact Hn|]. split; [exact Hb|].
           right. eauto.
        -- intros p Hp. specialize (Hb p Hp). lia.
Qed.
End RegistrationOrder.

(** C2: take any state with no list yet for [s], register callbacks on
    [s] and call some of the returned removers, in any interleaving; then
    dispatching [s] calls exactly the callbacks whose registration was not
    removed, last registered first. *)
Theorem dispatch_reverse_registration_order (s : nat) (ops : list RegOp) (t : Trap) :
  cbsList t !! s = None ->
  map value (invoked (snd (processSignal s (fst (runRegs s ops t []))))) =
  rev (map snd (liveRegs ops 0 [])).
Proof.
  intros Hs.
  assert (H0 : InvR s (nextElem t) t [] [] 0).
  { split; [reflexivity|]. split; [lia|]. split; [intros _ []|]. left. auto. }
  destruct (InvR_runRegs s (nextElem t) ops t [] [] 0 H0) as
    [cnt' (_ & _ & _ & [(Hn & -> & _)|(l & Hl & Hxs & _)])].
  - rewrite processSignal_invoked. unfold contents. rewrite Hn. reflexivity.
  - rewrite processSignal_invoked. unfold contents. rewrite Hl, Hxs. simpl.
    rewrite map_rev, map_map. reflexivity.
Qed.

(** No operation removes a map entry; a signal without a
    list gets one only by a registration on it (which is exactly when
    [signal.Notify] is called for it), or, for SIGKILL, SIGINT and SIGQUIT,
    by a kill-class dispatch that found a list, which installs fresh empty
    lists for all three whether or not anything was registered on them;
    and a registration on a signal that already has a list does not call
    [signal.Notify]. *)
Theorem list_creation_sources (o : Op) (t : Trap) (σ : nat) :
  (is_Some (cbsList t !! σ) -> is_Some (cbsList (fst (exec [o] t)) !! σ)) /\
  (cbsList t !! σ = None -> is_Some (cbsList (fst (exec [o] t)) !! σ) ->
     (exists cb, o = OpReg σ cb /\ notified (fst (exec [o] t)) = notified t ++ [σ]) \/
     (is_kill σ = true /\
      exists s, o = OpDisp s /\ is_kill s = true /\ is_Some (cbsList t !! s))) /\
  (forall cb, is_Some (cbsList t !! σ) -> notified (fst (OnSignal σ cb t)) = notified t).
Proof.
  split; [|split].
  - intros [l Hl]. destruct o as [s cb|r|s]; simpl.
    + exists l. apply cbsList_OnSignal_mono, Hl.
    + exists l. exact Hl.
    + destruct (processSignal s t) as [t1 ev1] eqn:E. simpl.
      pose proof (processSignal_state s t) as HS. rewrite E in HS. simpl in HS.
      subst t1. destruct (cbsList t !! s); [destruct (is_kill s)|]; [|eauto..].
      rewrite truncateKill_eq. simpl. rewrite !lookup_insert.
      repeat case_decide; eauto.
  - intros Hn Hs'. destruct o as [s cb|r|s]; simpl in *.
    + destruct (cbsList t !! s) as [l|] eqn:Hs.
      * rewrite (OnSignal_some t s cb l Hs) in Hs'. simpl in Hs'.
        rewrite Hn in Hs'. destruct Hs' as [? Hc]; discriminate.
      * rewrite (OnSignal_none t s cb Hs) in Hs' |- *. simpl in *.
        rewrite lookup_insert in Hs'. case_decide as Heq.
        -- subst σ. left. exists cb. auto.
        -- rewrite Hn in Hs'. destruct Hs' as [? Hc]; discriminate.
    + rewrite Hn in Hs'. destruct Hs' as [? Hc]; discriminate.
    + destruct (processSignal s t) as [t1 ev1] eqn:E. simpl in *.
      pose proof (processSignal_state s t) as HS. rewrite E in HS. simpl in HS.
      subst t1. destruct (cbsList t !! s) as [l|] eqn:Hs;
        [destruct (is_kill s) eqn:Hk|];
        try (rewrite Hn in Hs'; destruct Hs' as [? Hc]; discriminate).
      right. split.
      * rewrite truncateKill_eq in Hs'. simpl in Hs'. rewrite !lookup_insert in Hs'.
        unfold is_kill. repeat case_decide; subst; try reflexivity.
        rewrite Hn in Hs'. destruct Hs' as [? Hc]; discriminate.
      * exists s. split; [reflexivity|]. split; [exact Hk|]. eauto.
  - intros cb [l Hl]. rewrite (OnSignal_some t σ cb l Hl). reflexivity.
Qed.

Lemma held_count_insert (l : list CThread) i x y :
  l !! i = Some y ->
  length (List.filter held (<[i := x]> l)) + (if held y then 1 else 0) =
  length (List.filter held l) + (if held x then 1 else 0).
Proof.
  revert i. induction l as [|z l IH]; intros [|i] H; simpl in *; try discriminate.
  - injection H as ->. destruct (held x), (held y); simpl; lia.
  - specialize (IH i H). destruct (held z); simpl; lia.
Qed.

Lemma held_count_pos (l : list CThread) i o :
  l !! i = Some (CHeld o) -> 1 <= length (List.filter held l).
Proof.
  revert i. induction l as [|z l IH]; intros [|i] H; simpl in *; try discriminate.
  - injection H as ->. simpl. lia.
  - specialize (IH i H). destruct (held z); simpl; lia.
Qed.

Lemma cinv_init t n : wf t -> cinv (cw_init t n).
Proof.
  intros Hw. split; [|split; [exact Hw|intros s l k H; discriminate]].
  simpl. induction n as [|n IH]; simpl; lia.
Qed.

Lemma cinv_busy c :
  cinv c -> dbusy (dph c) = true ->
  locked c = true /\ forall i o, clients c !! i <> Some (CHeld o).
Proof.
  intros [Hc _] Hb. rewrite Hb in Hc.
  destruct (locked c); [|lia]. split; [reflexivity|].
  intros i o Hi. pose proof (held_count_pos _ _ _ Hi). lia.
Qed.

Lemma lists_truncateKill_old t l :
  l < nextList t -> lists (truncateKill t) !! l = lists t !! l.
Proof.
  intros Hl. rewrite truncateKill_eq. simpl. rewrite !lookup_insert_ne by lia. reflexivity.
Qed.

Lemma cinv_step c ev c' : cinv c -> cstep c ev c' -> cinv c'.
Proof.
  intros Hi Hs. pose proof Hi as (Hc & Hw & Hk).
  destruct Hs as [c s Hd Hl|c s Hd Hn|c s l Hd Hl|c s l t' Hd Ht|c s l k e Hd He|c s l Hd
                 |c Hd|c i o Hci Hl|c i o Hci]; simpl in *.
  - rewrite Hd, Hl in Hc. simpl in Hc.
    split; [simpl; lia|]. split; [exact Hw|]. intros ? ? ? [=].
  - rewrite Hd in Hc. split; [exact Hc|]. split; [exact Hw|]. intros ? ? ? [=].
  - rewrite Hd in Hc. split; [exact Hc|]. split; [exact Hw|]. intros ? ? ? [=].
  - rewrite Hd in Hc. split; [exact Hc|]. split.
    + subst t'. destruct (is_kill s); [apply wf_truncateKill|]; exact Hw.
    + intros s' l' k' [= <- <- _] Hks σ Hσ. subst t'. rewrite Hks.
      apply contents_truncateKill, Hσ.
  - rewrite Hd in Hc. split; [exact Hc|]. split; [exact Hw|].
    intros s' l' k' [= <- <- <-]. exact (Hk s l (S k) Hd).
  - rewrite Hd in Hc. split; [exact Hc|]. split; [exact Hw|]. intros ? ? ? [=].
  - rewrite Hd in Hc. simpl in Hc. destruct (locked c); [|lia].
    split; [simpl; lia|]. split; [exact Hw|]. intros ? ? ? [=].
  - rewrite Hl in Hc. pose proof (held_count_insert _ i (CHeld o) CIdle Hci) as Hn.
    simpl in Hn. split; [simpl; lia|]. split; [exact Hw|].
    intros s l k Hd. destruct (dph c); simpl in Hc; try discriminate; lia.
  - pose proof (held_count_insert _ i CIdle (CHeld o) Hci) as Hn.
    pose proof (held_count_pos _ _ _ Hci) as Hp. simpl in Hn.
    destruct (locked c); [|lia]. split; [simpl; destruct (dbusy (dph c)); lia|].
    split; [destruct o; simpl; [apply wf_OnSignal|apply wf_runRemover]; exact Hw|].
    intros s l k Hd. simpl in Hd. rewrite Hd in Hc. simpl in Hc. lia.
Qed.

Lemma cinv_steps c tr c' : cinv c -> csteps c tr c' -> cinv c'.
Proof.
  intros Hi Hs. induction Hs as [c|c ev c' tr c'' Hs Hss IH]; [exact Hi|].
  apply IH, (cinv_step c ev c' Hi Hs).
Qed.

Lemma drop_lookup_cons {A} (xs : list A) k e :
  xs !! k = Some e -> drop k xs = e :: drop (S k) xs.
Proof.
  revert k. induction xs as [|x xs IH]; intros [|k] H; simpl in *; try discriminate.
  - injection H as ->. reflexivity.
  - apply IH, H.
Qed.

Lemma run_rel_step c0 s c1 so ev c2 :
  wf (ctrap c0) -> (forall i o, clients c0 !! i <> Some (CHeld o)) ->
  run_rel c0 s c1 so -> cstep c1 ev c2 -> ~ In DUnlockE ev ->
  run_rel c0 s c2 (so ++ cinvoked ev).
Proof.
  intros Hw Hn (Hl & Hcl & R) Hs Hu.
  destruct Hs as [c s1 Hd Hl'|c s1 Hd Hm|c s1 l Hd Hh|c s1 l t' Hd Ht|c s1 l k e Hd He|c s1 l Hd
                 |c Hd|c i o Hci Hl'|c i o Hci]; simpl in *.
  - rewrite Hd in R. destruct R.
  - rewrite Hd in R. destruct R as (-> & Ht & ->). split; [exact Hl|]. split; [exact Hcl|]. simpl.
    rewrite Ht in Hm |- *. rewrite processSignal_state, Hm. split; [reflexivity|].
    unfold contents. rewrite Hm. reflexivity.
  - rewrite Hd in R. destruct R as (-> & Ht & ->). split; [exact Hl|]. split; [exact Hcl|]. simpl.
    rewrite Ht in Hh. auto.
  - rewrite Hd in R. destruct R as (-> & Htc & Hl0 & ->). split; [exact Hl|]. split; [exact Hcl|]. simpl.
    rewrite Htc in Ht.
    assert (Ht' : t' = fst (processSignal s (ctrap c0))).
    { rewrite processSignal_state, Hl0. exact Ht. }
    assert (Hxs : default [] (lists t' !! l) = contents (ctrap c0) s).
    { unfold contents. rewrite Hl0. subst t'.
      destruct (is_kill s); [|reflexivity].
      rewrite lists_truncateKill_old; [reflexivity|].
      destruct Hw as (H1 & _). apply (H1 s l Hl0). }
    rewrite Hxs. split; [reflexivity|]. split; [exact Hl0|]. split; [exact Ht'|].
    split; [reflexivity|]. split; [lia|]. rewrite drop_all. reflexivity.
  - rewrite Hd in R. destruct R as (-> & Hl0 & Ht & Hxs & Hk & ->).
    split; [exact Hl|]. split; [exact Hcl|]. simpl.
    rewrite Hxs in He. split; [reflexivity|]. split; [exact Hl0|]. split; [exact Ht|].
    split; [exact Hxs|]. split; [lia|].
    rewrite (drop_lookup_cons _ _ _ He). reflexivity.
  - rewrite Hd in R. destruct R as (-> & Hl0 & Ht & Hxs & Hk & ->).
    split; [exact Hl|]. split; [exact Hcl|]. simpl. rewrite app_nil_r. auto.
  - exfalso. apply Hu. left. reflexivity.
  - congruence.
  - rewrite Hcl in Hci. destruct (Hn i o Hci).
Qed.

Lemma run_rel_steps c0 s c1 so tr c2 :
  wf (ctrap c0) -> (forall i o, clients c0 !! i <> Some (CHeld o)) ->
  run_rel c0 s c1 so -> csteps c1 tr c2 -> ~ In DUnlockE tr ->
  run_rel c0 s c2 (so ++ cinvoked tr).
Proof.
  intros Hw Hn R Hs. revert so R.
  induction Hs as [c|c ev c' tr c'' Hs Hss IH]; intros so R Hu.
  - rewrite app_nil_r. exact R.
  - assert (Hc : cinvoked (ev ++ tr) = cinvoked ev ++ cinvoked tr).
    { clear. induction ev as [|[] ev IH]; simpl; rewrite ?IH; reflexivity. }
    rewrite Hc, app_assoc. apply IH.
    + apply (run_rel_step c0 s c so ev c' Hw Hn R Hs).
      intros H. apply Hu, in_app_iff. left. exact H.
    + intros H. apply Hu, in_app_iff. right. exact H.
Qed.

(** C6 (amended): with [mux] modelled as a lock shared by the dispatcher
    goroutine and any number of goroutines calling [OnSignal] or a
    remover, in every reachable state: while the dispatcher is anywhere in
    [processSignal] (between [mux.Lock()] and the deferred [mux.Unlock()],
    which covers every callback it calls) [mux] is held, no other goroutine
    is inside a registration or removal, and no other goroutine can move on,
    so every registration and removal waits for the dispatch to end; in the
    loop of a kill-class dispatch the three kill-class lists are already
    the fresh empty ones; and a dispatch of [s] from [mux.Lock()] to the
    pending [mux.Unlock()] calls exactly the list [s] had when the lock was
    taken, last registered first, and leaves the registry as
    [processSignal] does. *)
Theorem processSignal_holds_mux (t : Trap) (n : nat) (tr : list CEvent) (c : CWorld) :
  wf t -> csteps (cw_init t n) tr c ->
  (dbusy (dph c) = true ->
     locked c = true /\ (forall i o, clients c !! i <> Some (CHeld o)) /\
     forall ev c', cstep c ev c' -> clients c' = clients c) /\
  (forall s l k, dph c = DLoop s l k -> is_kill s = true ->
     forall σ, is_kill σ = true -> contents (ctrap c) σ = []) /\
  (forall s tr' c', dph c = DLocked s -> csteps c tr' c' -> ~ In DUnlockE tr' ->
     dph c' = DDone ->
     cinvoked tr' = rev (contents (ctrap c) s) /\ ctrap c' = fst (processSignal s (ctrap c))).
Proof.
  intros Hw Hs. pose proof (cinv_steps _ _ _ (cinv_init t n Hw) Hs) as Hi.
  pose proof Hi as (_ & Hwc & Hk).
  split; [|split; [exact Hk|]].
  - intros Hb. destruct (cinv_busy c Hi Hb) as [Hl Hn].
    split; [exact Hl|]. split; [exact Hn|].
    intros ev c' Hst. destruct Hst; simpl in *; try reflexivity; try congruence.
    exfalso. eapply Hn. eassumption.
  - intros s tr' c' Hd Hss Hu Hd'.
    destruct (cinv_busy c Hi) as [Hl Hn]; [rewrite Hd; reflexivity|].
    assert (R0 : run_rel c s c []).
    { split; [exact Hl|]. split; [reflexivity|]. rewrite Hd. auto. }
    pose proof (run_rel_steps c s c [] tr' c' Hwc Hn R0 Hss Hu) as (_ & _ & R).
    rewrite Hd' in R. destruct R as [Ht Hso]. split; [exact Hso|exact Ht].
Qed.

(* ------------------------------------------------------------------ *)
(** ** Witnesses: the claims' theorems at concrete inputs *)

Lemma kill_disjoint_init : kill_disjoint trap_init.
Proof. intros σ1 σ2 x y _ _ _ Hx. destruct Hx. Qed.

(** Registrations on the three kill-class signals, then the three
    dispatches: the callback runs once. *)
Lemma kill_dispatch_at_most_once_witness :
  NoDup (map eid (invoked (snd (exec [OpReg SIGINT 5; OpReg SIGQUIT 5; OpReg SIGKILL 5;
                                      OpDisp SIGINT; OpDisp SIGQUIT; OpDisp SIGKILL]
                                     trap_init)))) /\
  map value (invoked (snd (exec [OpReg SIGINT 5; OpReg SIGQUIT 5; OpReg SIGKILL 5;
                                 OpDisp SIGINT; OpDisp SIGQUIT; OpDisp SIGKILL] trap_init))) = [5].
Proof.
  split; [|reflexivity].
  apply (proj2 (kill_dispatch_at_most_once SIGINT trap_init
           [OpReg SIGINT 5; OpReg SIGQUIT 5; OpReg SIGKILL 5;
            OpDisp SIGINT; OpDisp SIGQUIT; OpDisp SIGKILL])).
  - exact wf_init.
  - exact kill_disjoint_init.
  - intros s' Hs'. simpl in Hs'.
    repeat (destruct Hs' as [Hs'|Hs']; [try discriminate; injection Hs' as <-; reflexivity|]).
    destruct Hs'.
Defined.

Lemma dispatch_reverse_registration_order_witness :
  cbsList trap_init !! SIGUSR1 = None /\
  map value (invoked (snd (processSignal SIGUSR1
     (fst (runRegs SIGUSR1 [RReg 1; RReg 2; RRem 0; RReg 3] trap_init []))))) = [3; 2].
Proof.
  split; [reflexivity|].
  exact (dispatch_reverse_registration_order SIGUSR1 [RReg 1; RReg 2; RRem 0; RReg 3]
           trap_init eq_refl).
Defined.

Lemma Deferrer_runs_interrupt_list_witness :
  exists w' ev,
    Deferrer None (mkWorld (fst (OnSignal SIGINT 5 (fst (OnSignal SIGINT 4 trap_init))))
                           [] false true false) = Some (w', ev) /\
    invoked ev = rev (contents (fst (OnSignal SIGINT 5 (fst (OnSignal SIGINT 4 trap_init))))
                               SIGINT) /\
    NoDup (map eid (invoked ev)).
Proof.
  do 2 eexists. split; [reflexivity|].
  eapply (Deferrer_runs_interrupt_list None
           (mkWorld (fst (OnSignal SIGINT 5 (fst (OnSignal SIGINT 4 trap_init))))
                    [] false true false)); [reflexivity | reflexivity | reflexivity |].
  exact (wf_OnSignal SIGINT 5 _ (wf_OnSignal SIGINT 4 _ wf_init)).
Defined.

Lemma remover_once_never_invoked_witness :
  match OnSignal SIGQUIT 7 (fst (OnSignal SIGINT 5 trap_init)) with
  | (t1, r) =>
      wf (fst (OnSignal SIGINT 5 trap_init)) /\
      ~ In (relem r) (map eid (invoked (snd (exec [OpReg SIGQUIT 7; OpDisp SIGINT] t1)))) /\
      forall σ', contents (runRemover r (fst (exec [OpReg SIGQUIT 7; OpDisp SIGINT] t1))) σ' =
                 contents (fst (exec [OpReg SIGQUIT 7; OpDisp SIGINT] t1)) σ'
  end.
Proof.
  assert (Hw : wf (fst (OnSignal SIGINT 5 trap_init))) by apply wf_OnSignal, wf_init.
  destruct (OnSignal SIGQUIT 7 (fst (OnSignal SIGINT 5 trap_init))) as [t1 r] eqn:E.
  destruct (remover_once_never_invoked SIGQUIT 7 _ t1 r [OpReg SIGQUIT 7; OpDisp SIGINT] Hw E)
    as (_ & _ & _ & _ & H5 & H6).
  split; [exact Hw|]. split.
  - apply H5. intros σ [H|[H|[]]]; [discriminate|]. injection H as <-. discriminate.
  - apply (H6 eq_refl [OpReg SIGQUIT 7] SIGINT []); [reflexivity|reflexivity|].
    vm_compute in E. injection E as <- _. vm_compute. eexists. reflexivity.
Defined.

Lemma Deferrer_exit_witness :
  match Deferrer (Some "boom"%string)
          (mkWorld (fst (OnKill 4 trap_init)) [] false true false) with
  | Some (w', ev) =>
      running w' = false /\ invoked ev = rev (contents (fst (OnKill 4 trap_init)) SIGINT) /\
      exists pre, ev = pre ++ [EDone; EExit 1]
  | None => False
  end.
Proof.
  assert (Hw : wf (fst (OnKill 4 trap_init))).
  { change (wf (fst (exec [OpReg SIGKILL 4; OpReg SIGQUIT 4; OpReg SIGINT 4] trap_init))).
    apply wf_exec, wf_init. }
  destruct (Deferrer (Some "boom"%string)
              (mkWorld (fst (OnKill 4 trap_init)) [] false true false)) as [[w' ev]|] eqn:E.
  - destruct (Deferrer_exit _ _ w' ev E eq_refl) as (H1 & _ & _ & H4 & _ & H6).
    split; [exact H1|]. split; [exact (proj1 (H4 eq_refl Hw))|].
    destruct (H6 _ eq_refl) as (pre & Hpre & _). exists pre. exact Hpre.
  - vm_compute in E. discriminate.
Defined.

Lemma OnKill_registers_all_three_witness :
  let '(t3, rs) := OnKill 5 trap_init in
  length rs = 3 /\
  (forall σ, map value (contents t3 σ) =
     map value (contents trap_init σ) ++ (if is_kill σ then [5] else [])) /\
  (forall σ, contents (runRemovers rs t3) σ = contents trap_init σ).
Proof. exact (OnKill_registers_all_three 5 trap_init wf_init). Defined.

Lemma Deferrer_no_dispatch_after_witness :
  match Deferrer None (mkWorld (fst (OnKill 5 trap_init)) [] false true false) with
  | Some (w', ev) =>
      running w' = false /\
      forall tr w'', wsteps w' tr w'' -> invoked tr = [] /\ running w'' = false
  | None => False
  end.
Proof.
  destruct (Deferrer None (mkWorld (fst (OnKill 5 trap_init)) [] false true false))
    as [[w' ev]|] eqn:E.
  - exact (Deferrer_no_dispatch_after _ _ w' ev E).
  - vm_compute in E. discriminate.
Defined.

Lemma processSignal_nonkill_frame_witness :
  fst (processSignal SIGUSR1 (fst (OnReload 3 trap_init))) = fst (OnReload 3 trap_init) /\
  map value (invoked (snd (exec (repeat (OpDisp SIGUSR1) 2) (fst (OnReload 3 trap_init)))))
    = [3; 3].
Proof.
  destruct (proj2 (processSignal_nonkill_frame SIGUSR1 (fst (OnReload 3 trap_init)) 2)
              eq_refl) as (H1 & _ & H3).
  split; [exact H1|]. rewrite H3. reflexivity.
Defined.

Lemma list_creation_sources_witness :
  (exists cb, OpDisp SIGINT = OpReg SIGQUIT cb /\
     notified (fst (exec [OpDisp SIGINT] (fst (OnSignal SIGINT 0 trap_init)))) =
     notified (fst (OnSignal SIGINT 0 trap_init)) ++ [SIGQUIT]) \/
  (is_kill SIGQUIT = true /\
   exists s, OpDisp SIGINT = OpDisp s /\ is_kill s = true /\
             is_Some (cbsList (fst (OnSignal SIGINT 0 trap_init)) !! s)).
Proof.
  apply (proj1 (proj2 (list_creation_sources (OpDisp SIGINT)
                         (fst (OnSignal SIGINT 0 trap_init)) SIGQUIT))).
  - reflexivity.
  - vm_compute. eexists. reflexivity.
Defined.

(* ------------------------------------------------------------------ *)
(** ** Further properties of the package *)

(** A kill-class dispatch leaves the list of every other signal (SIGUSR1
    and the rest) as it was, and calls only the dispatched signal's list. *)
Theorem kill_dispatch_keeps_other_lists (s : nat) (t : Trap) :
  wf t -> is_kill s = true ->
  invoked (snd (processSignal s t)) = rev (contents t s) /\
  forall σ, is_kill σ = false -> contents (fst (processSignal s t)) σ = contents t σ.
Proof.
  intros (H1 & H2 & H3) Hk. split; [apply processSignal_invoked|].
  intros σ Hσ. rewrite processSignal_state.
  destruct (cbsList t !! s); [|reflexivity]. rewrite Hk.
  unfold is_kill in Hσ. rewrite !orb_false_iff, !Nat.eqb_neq in Hσ.
  destruct Hσ as [[N9 N2] N3].
  rewrite truncateKill_eq. unfold contents. simpl.
  rewrite !lookup_insert_ne by (unfold SIGKILL, SIGINT, SIGQUIT in *; lia).
  destruct (cbsList t !! σ) as [l|] eqn:E; [|reflexivity].
  destruct (H1 σ l E) as [Hlt _]. rewrite !lookup_insert_ne by lia. reflexivity.
Qed.

Lemma notify_ok_OnSignal s c t : notify_ok t -> notify_ok (fst (OnSignal s c t)).
Proof.
  intros [Hnd Hin]. destruct (cbsList t !! s) as [l|] eqn:E.
  - rewrite (OnSignal_some t s c l E). split; [exact Hnd|exact Hin].
  - rewrite (OnSignal_none t s c E). split; simpl.
    + apply NoDup_app. split; [exact Hnd|]. split; [|constructor; [set_solver|constructor]].
      intros x Hx Hx'. apply list_elem_of_singleton in Hx'. subst x.
      apply list_elem_of_In, Hin in Hx. rewrite E in Hx. destruct Hx as [? Hc]; discriminate.
    + intros s' Hs'. rewrite lookup_insert. case_decide; [eauto|].
      apply in_app_iff in Hs' as [Hs'|[<-|[]]]; [exact (Hin s' Hs')|congruence].
Qed.

Lemma notify_ok_processSignal s t : notify_ok t -> notify_ok (fst (processSignal s t)).
Proof.
  intros [Hnd Hin]. rewrite processSignal_state.
  destruct (cbsList t !! s); [destruct (is_kill s)|]; try (split; assumption).
  rewrite truncateKill_eq. split; [exact Hnd|]. simpl.
  intros s' Hs'. destruct (Hin s' Hs') as [l Hl]. rewrite !lookup_insert.
  repeat case_decide; eauto.
Qed.

(** Over any sequence of registrations, removals and dispatches from the
    initial state, [signal.Notify] is called at most once per signal, and
    only for a signal that has a list. *)
Theorem notify_at_most_once (ops : list Op) :
  NoDup (notified (fst (exec ops trap_init))) /\
  forall s, In s (notified (fst (exec ops trap_init))) ->
            is_Some (cbsList (fst (exec ops trap_init)) !! s).
Proof.
  assert (H : forall t, notify_ok t -> notify_ok (fst (exec ops t))).
  { induction ops as [|[s cb|r|s] ops IH]; intros t Ht.
    - exact Ht.
    - apply IH, notify_ok_OnSignal, Ht.
    - apply IH. exact Ht.
    - rewrite exec_cons_disp. apply IH, notify_ok_processSignal, Ht. }
  apply H. split; [constructor|]. intros _ [].
Qed.

(** The registry built by any sequence of registrations, removals and
    dispatches from the initial state is well formed: each map entry
    points to an allocated list, no two signals share a list, and no
    element occurs twice in a list. *)
Theorem registry_wf_reachable (ops : list Op) : wf (fst (exec ops trap_init)).
Proof. apply wf_exec, wf_init. Qed.

Lemma onKillAll_facts cs t :
  wf t -> wf (onKillAll cs t) /\
  map value (contents (onKillAll cs t) SIGINT) = map value (contents t SIGINT) ++ cs.
Proof.
  revert t. induction cs as [|c cs IH]; intros t Hw; simpl.
  - rewrite app_nil_r. split; [exact Hw|reflexivity].
  - unfold OnKill.
    destruct (OnSignal SIGKILL c t) as [t1 r1] eqn:E1.
    destruct (OnSignal_facts _ _ _ _ _ Hw E1) as (W1 & C1 & _).
    destruct (OnSignal SIGQUIT c t1) as [t2 r2] eqn:E2.
    destruct (OnSignal_facts _ _ _ _ _ W1 E2) as (W2 & C2 & _).
    destruct (OnSignal SIGINT c t2) as [t3 r3] eqn:E3.
    destruct (OnSignal_facts _ _ _ _ _ W2 E3) as (W3 & C3 & _).
    simpl. destruct (IH t3 W3) as [W C]. split; [exact W|].
    rewrite C, C3, C2, C1. simpl. rewrite map_app, <- app_assoc. reflexivity.
Qed.

(** A program that registers the callbacks [cs] with [OnKill], in that
    order, and then calls [Deferrer] (with or without a panic) has each
    of them called exactly once, in the reverse order of registration. *)
Theorem onKill_then_Deferrer (p : option string) (cs : list Callback) :
  match Deferrer p (mkWorld (onKillAll cs trap_init) [] false true false) with
  | Some (_, ev) => map value (invoked ev) = rev cs /\ NoDup (map eid (invoked ev))
  | None => False
  end.
Proof.
  destruct (onKillAll_facts cs trap_init wf_init) as [W C].
  rewrite Deferrer_eq by reflexivity. cbn [chq trap app].
  set (t := onKillAll cs trap_init) in *.
  assert (Hi : invoked (match p with Some m => [EPanic m] | None => [] end ++
                 (snd (drain [SIGINT] t) ++ [EDone]) ++
                 match p with Some _ => [EExit 1] | None => [] end) =
               rev (contents t SIGINT)).
  { rewrite !invoked_app, drain_invoked. simpl map. rewrite exec_cons_disp.
    cbn [snd fst exec]. rewrite invoked_app, processSignal_invoked.
    destruct p; simpl; rewrite ?app_nil_r; reflexivity. }
  rewrite Hi. split.
  - rewrite map_rev, C. reflexivity.
  - apply NoDup_map_eid_rev, contents_NoDup, W.
Qed.

Lemma drain_kill_empty q t :
  (forall σ, is_kill σ = true -> contents t σ = []) ->
  (forall σ, In σ q -> is_kill σ = true) ->
  invoked (snd (drain q t)) = [].
Proof.
  revert t. induction q as [|σ q IH]; intros t He Hq; [reflexivity|].
  simpl. pose proof (processSignal_invoked σ t) as Hi.
  pose proof (processSignal_state σ t) as Hs.
  destruct (processSignal σ t) as [t1 ev1]. simpl in *.
  assert (He1 : forall σ', is_kill σ' = true -> contents t1 σ' = []).
  { intros σ' Hk'. subst t1. destruct (cbsList t !! σ); [destruct (is_kill σ)|];
      [apply contents_truncateKill, Hk'|apply He, Hk'..]. }
  specialize (IH t1 He1 (fun σ' H => Hq σ' (or_intror H))).
  destruct (drain q t1) as [t2 ev2]. simpl in *.
  rewrite invoked_app, IH, Hi, He by (apply Hq; left; reflexivity). reflexivity.
Qed.

(** With a kill-class signal that has a list at the head of the channel
    when [Deferrer] runs, and only kill-class signals after it, the
    callbacks that run are exactly that list, last registered first, each
    once: it is dispatched before [Deferrer]'s own SIGINT, and the signals
    after it, the SIGINT included, find only the fresh empty lists. *)
Theorem Deferrer_pending_kill_first (p : option string) (w w' : World) (ev : list Event)
    (s : nat) (q : list nat) :
  Deferrer p w = Some (w', ev) -> running w = true -> wf (trap w) ->
  chq w = s :: q -> is_kill s = true -> is_Some (cbsList (trap w) !! s) ->
  (forall σ, In σ q -> is_kill σ = true) ->
  invoked ev = rev (contents (trap w) s) /\ NoDup (map eid (invoked ev)).
Proof.
  intros E Hr Hw Hq Hk [l Hl] Hqk.
  destruct (closed w) eqn:Hc; [unfold Deferrer in E; rewrite Hc in E; discriminate|].
  rewrite (Deferrer_eq p w Hc Hr) in E. injection E as _ <-.
  assert (Hd : invoked (snd (drain (chq w ++ [SIGINT]) (trap w))) =
               rev (contents (trap w) s)).
  { rewrite Hq. simpl drain.
    pose proof (processSignal_invoked s (trap w)) as Hi.
    pose proof (processSignal_state s (trap w)) as Hs. rewrite Hl, Hk in Hs.
    destruct (processSignal s (trap w)) as [t1 ev1]. simpl in *. subst t1.
    assert (He : invoked (snd (drain (q ++ [SIGINT]) (truncateKill (trap w)))) = []).
    { apply drain_kill_empty; [intros σ Hσ; apply contents_truncateKill, Hσ|].
      intros σ Hσ. apply in_app_iff in Hσ as [Hσ|[<-|[]]]; [exact (Hqk σ Hσ)|reflexivity]. }
    destruct (drain (q ++ [SIGINT]) (truncateKill (trap w))) as [t2 ev2]. simpl in *.
    rewrite invoked_app, He, Hi, app_nil_r. reflexivity. }
  assert (Hinv : invoked (match p with Some m => [EPanic m] | None => [] end ++
                   (snd (drain (chq w ++ [SIGINT]) (trap w)) ++ [EDone]) ++
                   match p with Some _ => [EExit 1] | None => [] end) =
                 rev (contents (trap w) s)).
  { rewrite !invoked_app, Hd. destruct p; simpl; rewrite ?app_nil_r; reflexivity. }
  rewrite Hinv. split; [reflexivity|]. apply NoDup_map_eid_rev, contents_NoDup, Hw.
Qed.


Lemma filter_comm (f g : Element -> bool) xs :
  List.filter f (List.filter g xs) = List.filter g (List.filter f xs).
Proof.
  induction xs as [|x xs IH]; simpl; [reflexivity|].
  destruct (g x) eqn:G, (f x) eqn:F; simpl; rewrite ?G, ?F, ?IH; reflexivity.
Qed.

Lemma runRemover_comm r1 r2 t :
  runRemover r1 (runRemover r2 t) = runRemover r2 (runRemover r1 t).
Proof.
  unfold runRemover, listRemove. simpl. f_equal.
  destruct r1 as [l1 e1], r2 as [l2 e2]. simpl.
  apply map_eq. intros i. rewrite !lookup_alter.
  repeat case_decide; subst; try congruence; try reflexivity.
  match goal with |- context [lists t !! ?k] => destruct (lists t !! k) end;
    simpl; [rewrite filter_comm|]; reflexivity.
Qed.

Lemma runRemover_runRemovers r rs t :
  runRemover r (runRemovers rs t) = runRemovers rs (runRemover r t).
Proof.
  revert t. induction rs as [|r' rs IH]; intros t; simpl; [reflexivity|].
  unfold runRemovers in *. simpl. rewrite IH, runRemover_comm. reflexivity.
Qed.

(** Running a list of removers (as the remover returned by [OnKill] does)
    a second time changes nothing. *)
Theorem runRemovers_twice (rs : list Remover) (t : Trap) :
  runRemovers rs (runRemovers rs t) = runRemovers rs t.
Proof.
  revert t. induction rs as [|r rs IH]; intros t; [reflexivity|].
  change (runRemovers rs (runRemover r (runRemovers rs (runRemover r t))) =
          runRemovers rs (runRemover r t)).
  rewrite runRemover_runRemovers, runRemover_twice, IH. reflexivity.
Qed.

(** After a kill-class dispatch has truncated the kill lists, a callback
    registered afterwards on a kill-class signal is the only one the next
    dispatch of that signal calls. *)
Theorem register_after_truncation (s σ : nat) (c : Callback) (t : Trap) :
  wf t -> is_kill s = true -> is_Some (cbsList t !! s) -> is_kill σ = true ->
  map value (invoked (snd (processSignal σ
    (fst (OnSignal σ c (fst (processSignal s t))))))) = [c].
Proof.
  intros Hw Hk [l Hl] Hσ.
  pose proof (wf_processSignal s t Hw) as W1.
  assert (T : fst (processSignal s t) = truncateKill t).
  { rewrite processSignal_state, Hl, Hk. reflexivity. }
  rewrite T in *.
  destruct (OnSignal σ c (truncateKill t)) as [t2 r] eqn:E.
  destruct (OnSignal_facts _ _ _ _ _ W1 E) as (_ & C & _).
  simpl. rewrite processSignal_invoked, C, decide_True, contents_truncateKill by done.
  reflexivity.
Qed.

(** Registering a callback and then running the remover it returned
    leaves the callbacks of every signal as they were before. *)
Theorem OnSignal_remover_round_trip (s : nat) (c : Callback) (t t' : Trap) (r : Remover) :
  wf t -> OnSignal s c t = (t', r) ->
  forall σ, contents (runRemover r t') σ = contents t σ.
Proof.
  intros Hw E σ.
  destruct (OnSignal_facts _ _ _ _ _ Hw E) as (W' & C & Hl & Hr & _).
  rewrite (contents_runRemover_reg r s t' σ W' Hl), C.
  destruct (decide (σ = s)) as [->|N].
  - rewrite Hr. apply filter_drop_fresh. intros x Hx. exact (contents_bound t s x Hw Hx).
  - reflexivity.
Qed.

(* ------------------------------------------------------------------ *)
(** ** Instances of the further properties *)

Lemma kill_dispatch_keeps_other_lists_witness :
  wf (fst (OnSignal SIGUSR1 7 (fst (OnSignal SIGINT 5 trap_init)))) /\
  is_kill SIGINT = true /\
  (invoked (snd (processSignal SIGINT
     (fst (OnSignal SIGUSR1 7 (fst (OnSignal SIGINT 5 trap_init)))))) =
   rev (contents (fst (OnSignal SIGUSR1 7 (fst (OnSignal SIGINT 5 trap_init)))) SIGINT) /\
   forall σ, is_kill σ = false ->
     contents (fst (processSignal SIGINT
       (fst (OnSignal SIGUSR1 7 (fst (OnSignal SIGINT 5 trap_init)))))) σ =
     contents (fst (OnSignal SIGUSR1 7 (fst (OnSignal SIGINT 5 trap_init)))) σ).
Proof.
  assert (Hwf : wf (fst (OnSignal SIGUSR1 7 (fst (OnSignal SIGINT 5 trap_init))))).
  { apply wf_OnSignal, wf_OnSignal, wf_init. }
  split; [exact Hwf|]. split; [reflexivity|].
  apply kill_dispatch_keeps_other_lists; [exact Hwf|reflexivity].
Defined.

Lemma Deferrer_pending_kill_first_witness :
  match Deferrer None (mkWorld (fst (OnSignal SIGQUIT 6 trap_init)) [SIGQUIT] false true false) with
  | Some (_, ev) =>
      wf (fst (OnSignal SIGQUIT 6 trap_init)) /\
      is_Some (cbsList (fst (OnSignal SIGQUIT 6 trap_init)) !! SIGQUIT) /\
      invoked ev = rev (contents (fst (OnSignal SIGQUIT 6 trap_init)) SIGQUIT) /\
      NoDup (map eid (invoked ev))
  | None => False
  end.
Proof.
  assert (Hw : wf (fst (OnSignal SIGQUIT 6 trap_init))) by apply wf_OnSignal, wf_init.
  assert (Hs : is_Some (cbsList (fst (OnSignal SIGQUIT 6 trap_init)) !! SIGQUIT)).
  { vm_compute. eexists. reflexivity. }
  destruct (Deferrer None (mkWorld (fst (OnSignal SIGQUIT 6 trap_init)) [SIGQUIT] false true false))
    as [[w' ev]|] eqn:E.
  - split; [exact Hw|]. split; [exact Hs|].
    exact (Deferrer_pending_kill_first None _ w' ev SIGQUIT [] E eq_refl Hw eq_refl eq_refl Hs
             (fun σ H => match H with end)).
  - vm_compute in E. discriminate.
Defined.

Lemma register_after_truncation_witness :
  wf (fst (OnSignal SIGINT 4 trap_init)) /\ is_kill SIGINT = true /\
  is_Some (cbsList (fst (OnSignal SIGINT 4 trap_init)) !! SIGINT) /\ is_kill SIGQUIT = true /\
  map value (invoked (snd (processSignal SIGQUIT
    (fst (OnSignal SIGQUIT 6 (fst (processSignal SIGINT
      (fst (OnSignal SIGINT 4 trap_init))))))))) = [6].
Proof.
  assert (Hwf : wf (fst (OnSignal SIGINT 4 trap_init))) by apply wf_OnSignal, wf_init.
  assert (HS : is_Some (cbsList (fst (OnSignal SIGINT 4 trap_init)) !! SIGINT)).
  { vm_compute. eexists. reflexivity. }
  split; [exact Hwf|]. split; [reflexivity|]. split; [exact HS|]. split; [reflexivity|].
  apply register_after_truncation; [exact Hwf|reflexivity|exact HS|reflexivity].
Defined.

Lemma OnSignal_remover_round_trip_witness :
  match OnSignal SIGUSR1 3 (fst (OnSignal SIGUSR1 1 trap_init)) with
  | (t', r) =>
      wf (fst (OnSignal SIGUSR1 1 trap_init)) /\
      forall σ, contents (runRemover r t') σ = contents (fst (OnSignal SIGUSR1 1 trap_init)) σ
  end.
Proof.
  assert (Hwf : wf (fst (OnSignal SIGUSR1 1 trap_init))) by apply wf_OnSignal, wf_init.
  destruct (OnSignal SIGUSR1 3 (fst (OnSignal SIGUSR1 1 trap_init))) as [t' r] eqn:E.
  split; [exact Hwf|]. exact (OnSignal_remover_round_trip SIGUSR1 3 _ t' r Hwf E).
Defined.

Lemma processSignal_holds_mux_witness :
  wf (fst (OnSignal SIGINT 3 trap_init)) /\
  csteps (cw_init (fst (OnSignal SIGINT 3 trap_init)) 1) [DLockE SIGINT]
         (mkCW (fst (OnSignal SIGINT 3 trap_init)) true (DLocked SIGINT) [CIdle]) /\
  exists tr' c',
    csteps (mkCW (fst (OnSignal SIGINT 3 trap_init)) true (DLocked SIGINT) [CIdle]) tr' c' /\
    ~ In DUnlockE tr' /\ dph c' = DDone /\ map value (cinvoked tr') = [3] /\
    ctrap c' = fst (processSignal SIGINT (fst (OnSignal SIGINT 3 trap_init))).
Proof.
  assert (Hw : wf (fst (OnSignal SIGINT 3 trap_init))) by apply wf_OnSignal, wf_init.
  assert (Hs : csteps (cw_init (fst (OnSignal SIGINT 3 trap_init)) 1) [DLockE SIGINT]
         (mkCW (fst (OnSignal SIGINT 3 trap_init)) true (DLocked SIGINT) [CIdle])).
  { change [DLockE SIGINT] with ([DLockE SIGINT] ++ []).
    eapply CSStep; [apply CSLock; reflexivity|apply CSRefl]. }
  split; [exact Hw|]. split; [exact Hs|].
  destruct (processSignal_holds_mux _ 1 _ _ Hw Hs) as (_ & _ & H3).
  assert (Hrun : csteps (mkCW (fst (OnSignal SIGINT 3 trap_init)) true (DLocked SIGINT) [CIdle])
                   ([] ++ [] ++ [DInvokeE (mkElement 0 3)] ++ [] ++ [])
                   (mkCW (truncateKill (fst (OnSignal SIGINT 3 trap_init))) true DDone [CIdle])).
  { eapply CSStep; [eapply CSHit; reflexivity|].
    eapply CSStep; [eapply CSTrunc; reflexivity|].
    eapply CSStep; [eapply CSInvoke; reflexivity|].
    eapply CSStep; [eapply CSEnd; reflexivity|]. apply CSRefl. }
  do 2 eexists. split; [exact Hrun|].
  assert (Hu : ~ In DUnlockE ([] ++ [] ++ [DInvokeE (mkElement 0 3)] ++ [] ++ [])).
  { simpl. intros [H|[]]. discriminate. }
  split; [exact Hu|]. split; [reflexivity|].
  destruct (H3 SIGINT _ _ eq_refl Hrun Hu eq_refl) as [-> Ht]. split; [reflexivity|exact Ht].
Defined.

Lemma interrupt_dispatch_suppresses_quit_notify_witness :
  (forall s, In s (notified (fst (OnSignal SIGINT 0 trap_init))) ->
             is_Some (cbsList (fst (OnSignal SIGINT 0 trap_init)) !! s)) /\
  cbsList (fst (OnSignal SIGINT 0 trap_init)) !! SIGQUIT = None /\
  is_Some (cbsList (fst (OnSignal SIGINT 0 trap_init)) !! SIGINT) /\
  ~ In SIGQUIT (notified (fst (OnSignal SIGQUIT 1
      (fst (processSignal SIGINT (fst (OnSignal SIGINT 0 trap_init))))))).
Proof.
  assert (Hn : forall s, In s (notified (fst (OnSignal SIGINT 0 trap_init))) ->
             is_Some (cbsList (fst (OnSignal SIGINT 0 trap_init)) !! s)).
  { intros s [<-|[]]. vm_compute. eexists. reflexivity. }
  assert (Hq : cbsList (fst (OnSignal SIGINT 0 trap_init)) !! SIGQUIT = None) by reflexivity.
  assert (Hi : is_Some (cbsList (fst (OnSignal SIGINT 0 trap_init)) !! SIGINT)).
  { vm_compute. eexists. reflexivity. }
  split; [exact Hn|]. split; [exact Hq|]. split; [exact Hi|].
  exact (proj2 (proj2 (interrupt_dispatch_suppresses_quit_notify _ 1 Hn Hq Hi))).
Defined.
